(** * Traffic-light simulator: a shallow embedding of [traffic_light_simulator.py]

    The embedding follows the Python source class by class.

    - Millisecond clocks ([current_ms], [last_change_ms], [next_spawn_ms])
      are Python [int]s and are modelled by [Z].
    - Coordinates, speeds and the frame time [dt] are Python [float]s.  They
      are modelled by exact rationals [Q]: the embedding keeps every
      comparison and every arithmetic operation of the source, but performs
      them without rounding.  Numeric equality of two coordinates is
      therefore [Qeq] ([==]), while values the source assigns literally
      (such as [dy = 0]) are compared with [=].
    - Two [pygame.Vector2] are compared as pygame compares them: equal when
      every coordinate differs by less than 1e-6.  This is the comparison
      [self.cars.remove(car)] meets through the dataclass [__eq__] of [Car].
    - Python objects that are mutated in place while two lists refer to
      them (the cars of [Simulation.update]) live in a store indexed by
      references.
    - [random.randint] is modelled by the finite list of its equiprobable
      outcomes. *)

From Stdlib Require Import ZArith QArith Qabs Qfield Bool List Lia Lqa.
Import ListNotations.

Local Open Scope Z_scope.

(** ** Numeric helpers *)

(** Python's [a <= b] and [a < b] on floats, as boolean tests on [Q]. *)
Definition Qleb (a b : Q) : bool := Qle_bool a b.
Definition Qltb (a b : Q) : bool := negb (Qle_bool b a).

(** ** Constants *)

Definition ANCHO_PANTALLA : Z := 900.
Definition ALTO_PANTALLA : Z := 600.
Definition FPS : Z := 60.

Definition TIEMPO_VERDE : Z := 6000.
Definition TIEMPO_AMARILLO : Z := 2000.

(** ** Enumerations *)

Inductive LightState : Type := VERDE | AMARILLO | ROJO.

Inductive Direction : Type := NORTE | SUR | ESTE | OESTE.

Definition LightState_eqb (a b : LightState) : bool :=
  match a, b with
  | VERDE, VERDE | AMARILLO, AMARILLO | ROJO, ROJO => true
  | _, _ => false
  end.

Definition Direction_eqb (a b : Direction) : bool :=
  match a, b with
  | NORTE, NORTE | SUR, SUR | ESTE, ESTE | OESTE, OESTE => true
  | _, _ => false
  end.

(** [d in (Direction.NORTE, Direction.SUR)] and
    [d in (Direction.ESTE, Direction.OESTE)]. *)
Definition in_NORTE_SUR (d : Direction) : bool :=
  Direction_eqb d NORTE || Direction_eqb d SUR.
Definition in_ESTE_OESTE (d : Direction) : bool :=
  Direction_eqb d ESTE || Direction_eqb d OESTE.

(** ** TrafficLight *)

Record TrafficLight : Type := mkTrafficLight {
  tl_position : Q * Q;
  orientation : Direction;
  last_change_ms : Z;
  state : LightState
}.

Definition set_light (l : TrafficLight) (s : LightState) (ms : Z) : TrafficLight :=
  {| tl_position := tl_position l;
     orientation := orientation l;
     last_change_ms := ms;
     state := s |}.

(** [TrafficLight.update]: the [if]/[elif]/[elif] chain of the source. *)
Definition TrafficLight_update (l : TrafficLight) (current_ms : Z) : TrafficLight :=
  let tiempo_en_estado := current_ms - last_change_ms l in
  if LightState_eqb (state l) VERDE && (tiempo_en_estado >=? TIEMPO_VERDE) then
    set_light l AMARILLO current_ms
  else if LightState_eqb (state l) AMARILLO && (tiempo_en_estado >=? TIEMPO_AMARILLO) then
    set_light l ROJO current_ms
  else if LightState_eqb (state l) ROJO
          && (tiempo_en_estado >=? TIEMPO_VERDE + TIEMPO_AMARILLO) then
    set_light l VERDE current_ms
  else l.

(** [TrafficLight.is_green_for]. *)
Definition is_green_for (l : TrafficLight) (direction : Direction) : bool :=
  let mismo_eje :=
    if in_NORTE_SUR direction then in_NORTE_SUR (orientation l)
    else in_ESTE_OESTE (orientation l) in
  mismo_eje && LightState_eqb (state l) VERDE.

(** ** Car *)

Record Vector2 : Type := mkVector2 { vx : Q; vy : Q }.

Record Car : Type := mkCar {
  direction : Direction;
  position : Vector2;
  speed : Q;
  length : Z;
  width : Z
}.

(** The dataclass defaults [speed = 120.0], [length = 25], [width = 15]. *)
Definition new_Car (d : Direction) (p : Vector2) : Car :=
  {| direction := d; position := p; speed := 120; length := 25; width := 15 |}.

(** The two reference lines computed at the top of [Car.update]. *)
Definition stop_line_y : Q := inject_Z ALTO_PANTALLA / 2 - 40.
Definition stop_line_x : Q := inject_Z ANCHO_PANTALLA / 2 - 40.

(** [self.length/2] is a true division. *)
Definition half_length (c : Car) : Q := inject_Z (length c) / 2.

(** The intended displacement computed from [direction] and [speed * dt]. *)
Definition intended_displacement (c : Car) (dt : Q) : Q * Q :=
  match direction c with
  | NORTE => (0, - speed c * dt)
  | SUR => (0, speed c * dt)
  | ESTE => (speed c * dt, 0)
  | OESTE => (- speed c * dt, 0)
  end%Q.

(** The body executed for one light that is not green for the car: the
    [if]/[elif] chain over the four directions, each with its nested test.
    The position read here is the one the car had on entry. *)
Definition brake_check (c : Car) (d : Q * Q) : Q * Q :=
  let '(dx, dy) := d in
  let x := vx (position c) in
  let y := vy (position c) in
  let h := half_length c in
  (if Direction_eqb (direction c) NORTE && Qleb (y - h) stop_line_y then
     if Qltb (stop_line_y - 5) (y - h) then (dx, 0) else (dx, dy)
   else if Direction_eqb (direction c) SUR && Qleb (stop_line_y + 80) (y + h) then
     if Qltb (y + h) (stop_line_y + 85) then (dx, 0) else (dx, dy)
   else if Direction_eqb (direction c) OESTE && Qleb (x - h) stop_line_x then
     if Qltb (stop_line_x - 5) (x - h) then (0, dy) else (dx, dy)
   else if Direction_eqb (direction c) ESTE && Qleb (stop_line_x + 80) (x + h) then
     if Qltb (x + h) (stop_line_x + 85) then (0, dy) else (dx, dy)
   else (dx, dy))%Q.

(** The [for luz in luces] loop of [Car.update]. *)
Definition brake_loop (c : Car) (luces : list TrafficLight) (d : Q * Q) : Q * Q :=
  fold_left
    (fun acc luz => if negb (is_green_for luz (direction c)) then brake_check c acc else acc)
    luces d.

(** The pair [(dx, dy)] that [Car.update] finally adds to the position. *)
Definition displacement (c : Car) (dt : Q) (luces : list TrafficLight) : Q * Q :=
  brake_loop c luces (intended_displacement c dt).

(** [Car.update]. *)
Definition Car_update (c : Car) (dt : Q) (luces : list TrafficLight) : Car :=
  let '(dx, dy) := displacement c dt luces in
  {| direction := direction c;
     position := {| vx := vx (position c) + dx; vy := vy (position c) + dy |}%Q;
     speed := speed c;
     length := length c;
     width := width c |}.

(** [Car.is_off_screen]. *)
Definition is_off_screen (c : Car) : bool :=
  Qltb (vx (position c)) (-50)
  || Qltb (inject_Z ANCHO_PANTALLA + 50) (vx (position c))
  || Qltb (vy (position c)) (-50)
  || Qltb (inject_Z ALTO_PANTALLA + 50) (vy (position c)).

(** [pygame.Vector2.__eq__]: two vectors compare equal when every
    coordinate differs by less than the vector's [epsilon], which is 1e-6
    unless changed (the source never changes it). *)
Definition VECTOR_EPSILON : Q := 1 # 1000000.

Definition Vector2_eqb (p q : Vector2) : bool :=
  Qltb (Qabs (vx p - vx q)) VECTOR_EPSILON
  && Qltb (Qabs (vy p - vy q)) VECTOR_EPSILON.

(** The dataclass-generated [__eq__]: field-wise comparison of
    [(direction, position, speed, length, width)]; the positions are
    compared by [pygame.Vector2.__eq__]. *)

Definition Car_eqb (a b : Car) : bool :=
  Direction_eqb (direction a) (direction b)
  && Vector2_eqb (position a) (position b)
  && Qeq_bool (speed a) (speed b)
  && (length a =? length b)
  && (width a =? width b).

(** ** Randomness

    A call of [random.randint a b] yields one of the integers [a], ...,
    [b], each with the same probability.  A computation that draws is
    modelled by the list of its equiprobable results; [randint a b] lists
    every outcome once.  When [b < a] the list is empty (Python raises
    [ValueError]). *)
Definition Dist (A : Type) : Type := list A.

Definition ret {A : Type} (a : A) : Dist A := [a].
Definition bind {A B : Type} (m : Dist A) (f : A -> Dist B) : Dist B := flat_map f m.

Definition randint (a b : Z) : Dist Z :=
  map (fun k => a + Z.of_nat k) (seq 0 (Z.to_nat (b - a + 1))).

(** ** The store of car objects

    [Simulation.update] iterates over a copy of [self.cars] while mutating
    the car objects and removing them from [self.cars].  Car objects are
    therefore kept in a store and lists hold references to them. *)
Definition Ref : Type := nat.
Definition Heap : Type := Ref -> Car.

Definition heap_set (h : Heap) (r : Ref) (c : Car) : Heap :=
  fun r' => if Nat.eqb r' r then c else h r'.

Record CarStore : Type := mkCarStore {
  heap : Heap;
  next_ref : Ref
}.

(** Allocation of a fresh object. *)
Definition alloc (st : CarStore) (c : Car) : Ref * CarStore :=
  (next_ref st, {| heap := heap_set (heap st) (next_ref st) c;
                   next_ref := S (next_ref st) |}).

(** Python's [list.remove(x)]: drop the first item that is [x] or compares
    equal to [x]. *)
Fixpoint remove_first (p : Ref -> bool) (l : list Ref) : list Ref :=
  match l with
  | [] => []
  | e :: t => if p e then t else e :: remove_first p t
  end.

Definition list_remove (h : Heap) (l : list Ref) (r : Ref) : list Ref :=
  remove_first (fun e => Nat.eqb e r || Car_eqb (h e) (h r)) l.

(** ** Spawner *)

Record Spawner : Type := mkSpawner {
  sp_direction : Direction;
  spawn_pos : Q * Q;
  interval_range : Z * Z;
  next_spawn_ms : Z
}.

(** [Spawner.__init__] with the default [interval_range]. *)
Definition new_Spawner (d : Direction) (p : Q * Q) : Spawner :=
  {| sp_direction := d; spawn_pos := p; interval_range := (1500, 4000);
     next_spawn_ms := 0 |}.

Definition set_next_spawn (sp : Spawner) (ms : Z) : Spawner :=
  {| sp_direction := sp_direction sp; spawn_pos := spawn_pos sp;
     interval_range := interval_range sp; next_spawn_ms := ms |}.

(** The car built by [Car(self.direction, pygame.Vector2(self.spawn_pos))]. *)
Definition spawned_Car (sp : Spawner) : Car :=
  new_Car (sp_direction sp)
          {| vx := fst (spawn_pos sp); vy := snd (spawn_pos sp) |}.

(** [Spawner.update]. *)
Definition Spawner_update (sp : Spawner) (current_ms : Z)
    (st : CarStore) (cars : list Ref) : Dist (Spawner * CarStore * list Ref) :=
  if current_ms >=? next_spawn_ms sp then
    let '(r, st') := alloc st (spawned_Car sp) in
    bind (randint (fst (interval_range sp)) (snd (interval_range sp)))
         (fun u => ret (set_next_spawn sp (current_ms + u), st', cars ++ [r]))
  else ret (sp, st, cars).

(** ** Simulation *)

Record Simulation : Type := mkSimulation {
  traffic_light_ns : TrafficLight;
  traffic_light_ew : TrafficLight;
  store : CarStore;
  cars : list Ref;
  spawners : list Spawner
}.

(** The state built by [Simulation.__init__]. *)
Definition Simulation_init : Simulation :=
  let W := inject_Z ANCHO_PANTALLA in
  let H := inject_Z ALTO_PANTALLA in
  {| traffic_light_ns :=
       {| tl_position := (W / 2 - 60, H / 2 - 60)%Q; orientation := NORTE;
          last_change_ms := 0; state := VERDE |};
     traffic_light_ew :=
       {| tl_position := (W / 2 + 20, H / 2 - 60)%Q; orientation := ESTE;
          last_change_ms := 0; state := ROJO |};
     store := {| heap := fun _ => new_Car NORTE {| vx := 0; vy := 0 |};
                 next_ref := 0%nat |};
     cars := [];
     spawners :=
       [ new_Spawner SUR (W / 2 - 20, - (30))%Q;
         new_Spawner NORTE (W / 2 + 20, H + 30)%Q;
         new_Spawner ESTE (- (30), H / 2 + 20)%Q;
         new_Spawner OESTE (W + 30, H / 2 - 20)%Q ] |}.

(** The traffic-light part of [Simulation.update].  The local [ciclo_ns]
    of the source is computed and never read. *)
Definition update_lights (ns ew : TrafficLight) (current_ms : Z)
    : TrafficLight * TrafficLight :=
  let ns' := TrafficLight_update ns current_ms in
  if LightState_eqb (state ns') ROJO then
    (ns', TrafficLight_update ew current_ms)
  else
    (ns', set_light ew ROJO current_ms).

(** The loop [for spawner in self.spawners: spawner.update(...)]. *)
Fixpoint update_spawners (sps : list Spawner) (current_ms : Z)
    (st : CarStore) (cars : list Ref) : Dist (list Spawner * CarStore * list Ref) :=
  match sps with
  | [] => ret ([], st, cars)
  | sp :: rest =>
      bind (Spawner_update sp current_ms st cars) (fun '(sp', st', cars') =>
      bind (update_spawners rest current_ms st' cars') (fun '(rest', st'', cars'') =>
      ret (sp' :: rest', st'', cars'')))
  end.

(** One iteration of [for car in list(self.cars)]: the car object is
    updated in place, and removed from [self.cars] when off screen. *)
Definition car_step (dt : Q) (luces : list TrafficLight)
    (acc : Heap * list Ref) (r : Ref) : Heap * list Ref :=
  let '(h, cs) := acc in
  let h' := heap_set h r (Car_update (h r) dt luces) in
  if is_off_screen (h' r) then (h', list_remove h' cs r) else (h', cs).

(** The whole loop; the second argument of [fold_left] is the copy
    [list(self.cars)]. *)
Definition update_cars (dt : Q) (luces : list TrafficLight)
    (h : Heap) (cs : list Ref) : Heap * list Ref :=
  fold_left (car_step dt luces) cs (h, cs).

(** [Simulation.update]. *)
Definition Simulation_update (s : Simulation) (dt : Q) (current_ms : Z)
    : Dist Simulation :=
  let '(ns, ew) := update_lights (traffic_light_ns s) (traffic_light_ew s) current_ms in
  bind (update_spawners (spawners s) current_ms (store s) (cars s))
       (fun '(sps, st, cs) =>
          let '(h, cs') := update_cars dt [ns; ew] (heap st) cs in
          ret {| traffic_light_ns := ns;
                 traffic_light_ew := ew;
                 store := {| heap := h; next_ref := next_ref st |};
                 cars := cs';
                 spawners := sps |}).

(** States the running program can be in: the initial one, and every
    outcome of a call of [Simulation.update]. *)
Inductive reachable : Simulation -> Prop :=
| reachable_init : reachable Simulation_init
| reachable_update (s s' : Simulation) (dt : Q) (current_ms : Z) :
    reachable s -> In s' (Simulation_update s dt current_ms) -> reachable s'.

(** ** Geometry of the crossing, from [draw_roads]

    The horizontal road is [Rect(0, ALTO/2 - 40, ANCHO, 80)] and the
    vertical road is [Rect(ANCHO/2 - 40, 0, 80, ALTO)]; the intersection is
    the square where they overlap. *)
Definition road_top : Q := inject_Z ALTO_PANTALLA / 2 - 40.
Definition road_bottom : Q := road_top + 80.
Definition road_left : Q := inject_Z ANCHO_PANTALLA / 2 - 40.
Definition road_right : Q := road_left + 80.

(** The edge of the car that points in its direction of travel; these are
    the expressions [Car.update] compares with the stop lines. *)
Definition leading_edge (c : Car) : Q :=
  match direction c with
  | NORTE => vy (position c) - half_length c
  | SUR => vy (position c) + half_length c
  | OESTE => vx (position c) - half_length c
  | ESTE => vx (position c) + half_length c
  end.

(** The coordinate of the leading edge increases for [SUR] and [ESTE] and
    decreases for [NORTE] and [OESTE]; [progress] orients it so that it
    always grows along the direction of travel. *)
Definition forward_sign (d : Direction) : Q :=
  match d with
  | NORTE | OESTE => - (1)
  | SUR | ESTE => 1
  end.

Definition progress (c : Car) : Q := forward_sign (direction c) * leading_edge c.

(** The border of the intersection a car heading [d] reaches first (it is
    spawned on that side, see [spawn_before_entry]) and the one it reaches
    last. *)
Definition entry_boundary (d : Direction) : Q :=
  match d with
  | NORTE => road_bottom
  | SUR => road_top
  | OESTE => road_right
  | ESTE => road_left
  end.

Definition exit_boundary (d : Direction) : Q :=
  match d with
  | NORTE => road_top
  | SUR => road_bottom
  | OESTE => road_left
  | ESTE => road_right
  end.

(** The band in which [brake_check] zeroes the displacement. *)
Definition in_brake_band (c : Car) : bool :=
  match direction c with
  | NORTE => Qleb (leading_edge c) stop_line_y && Qltb (stop_line_y - 5) (leading_edge c)
  | SUR => Qleb (stop_line_y + 80) (leading_edge c) && Qltb (leading_edge c) (stop_line_y + 85)
  | OESTE => Qleb (leading_edge c) stop_line_x && Qltb (stop_line_x - 5) (leading_edge c)
  | ESTE => Qleb (stop_line_x + 80) (leading_edge c) && Qltb (leading_edge c) (stop_line_x + 85)
  end.

(** Iterated calls of the traffic-light part of [Simulation.update]. *)
Definition run_lights (l : TrafficLight * TrafficLight) (times : list Z)
    : TrafficLight * TrafficLight :=
  fold_left (fun p ms => update_lights (fst p) (snd p) ms) times l.

(** Iterated calls of [Car.update] with the same arguments. *)
Fixpoint Car_update_n (n : nat) (c : Car) (dt : Q) (luces : list TrafficLight) : Car :=
  match n with
  | O => c
  | S n' => Car_update_n n' (Car_update c dt luces) dt luces
  end.

(** The states visited by iterated calls, one entry per call. *)
Fixpoint lights_trace (l : TrafficLight * TrafficLight) (times : list Z)
    : list (TrafficLight * TrafficLight) :=
  match times with
  | [] => []
  | ms :: rest =>
      let l' := update_lights (fst l) (snd l) ms in
      l' :: lights_trace l' rest
  end.

(** ** Vocabulary of the properties *)

(** The cyclic order of the phases and the time each phase lasts, as they
    appear in the three branches of [TrafficLight.update]. *)
Definition next_state (s : LightState) : LightState :=
  match s with
  | VERDE => AMARILLO
  | AMARILLO => ROJO
  | ROJO => VERDE
  end.

Definition timeout_of (s : LightState) : Z :=
  match s with
  | VERDE => TIEMPO_VERDE
  | AMARILLO => TIEMPO_AMARILLO
  | ROJO => TIEMPO_VERDE + TIEMPO_AMARILLO
  end.

(** Both lights show a phase other than [ROJO]. *)
Definition both_non_red (ns ew : TrafficLight) : bool :=
  negb (LightState_eqb (state ns) ROJO) && negb (LightState_eqb (state ew) ROJO).

(** The two lights as [Simulation.__init__] leaves them. *)
Definition lights_init : TrafficLight * TrafficLight :=
  (traffic_light_ns Simulation_init, traffic_light_ew Simulation_init).

(** One call of [Simulation.update] per second, for sixteen seconds. *)
Definition every_second : list Z :=
  map (fun k => 1000 * Z.of_nat k) (seq 1 16).

(** One call every 16 ms (the frame time at 60 frames per second, rounded
    down), up to 16000 ms. *)
Definition every_frame : list Z :=
  map (fun k => 16 * Z.of_nat k) (seq 1 1000).

(** The coordinate along the direction of travel and the one across it. *)
Definition along (d : Direction) (p : Vector2) : Q :=
  match d with
  | NORTE | SUR => vy p
  | ESTE | OESTE => vx p
  end.

Definition across (d : Direction) (p : Vector2) : Q :=
  match d with
  | NORTE | SUR => vx p
  | ESTE | OESTE => vy p
  end.

(** How far a car has advanced, measured forwards along its direction of
    travel, between two of its states. *)
Definition advance (c c' : Car) : Q :=
  forward_sign (direction c) * (along (direction c) (position c') - along (direction c) (position c)).

(** The displacement with its component along the direction of travel
    replaced by the literal [0] that [brake_check] assigns. *)
Definition halted (c : Car) (d : Q * Q) : Q * Q :=
  match direction c with
  | NORTE | SUR => (fst d, 0%Q)
  | ESTE | OESTE => (0%Q, snd d)
  end.

(** Some light of the list is not green for the direction. *)
Definition some_light_not_green (luces : list TrafficLight) (d : Direction) : bool :=
  existsb (fun luz => negb (is_green_for luz d)) luces.

(** The two lights of a simulation, in arbitrary phases. *)
Definition lights_in (sn se : LightState) (tn te : Z) : list TrafficLight :=
  [ set_light (traffic_light_ns Simulation_init) sn tn;
    set_light (traffic_light_ew Simulation_init) se te ].

(** A car as the spawners build it, at a given place. *)
Definition car_at (d : Direction) (x y : Q) : Car :=
  new_Car d {| vx := x; vy := y |}.

(** The test [Simulation.update] leaves to [Car.is_off_screen], read
    through the store. *)
Definition on_screen (h : Heap) (r : Ref) : bool := negb (is_off_screen (h r)).

(** Every car object is listed once and was allocated by the store. *)
Definition cars_wf (st : CarStore) (cs : list Ref) : Prop :=
  NoDup cs /\ forall r, In r cs -> (r < next_ref st)%nat.

(** ** The rest of the program *)

(** *** Colours and drawing of the lights *)

Definition Color : Type := (Z * Z * Z)%type.

Definition COLOR_COCHE : Color := (255, 165, 0).
Definition COLOR_ROJO : Color := (220, 20, 60).
Definition COLOR_AMARILLO : Color := (255, 215, 0).
Definition COLOR_VERDE : Color := (0, 200, 0).
Definition COLOR_CAJA_SEMAFORO : Color := (20, 20, 20).

(** [TrafficLight.color]: a lookup in a dictionary keyed by the three
    states. *)
Definition color (l : TrafficLight) : Color :=
  match state l with
  | VERDE => COLOR_VERDE
  | AMARILLO => COLOR_AMARILLO
  | ROJO => COLOR_ROJO
  end.

(** The three [pygame.draw.circle] calls that [draw_traffic_lights] issues
    for one light, as (colour, centre, radius), in the order of
    [enumerate((COLOR_ROJO, COLOR_AMARILLO, COLOR_VERDE))]. *)
Definition lamp_circles (luz : TrafficLight) : list (Color * (Q * Q) * Z) :=
  let '(x, y) := tl_position luz in
  map (fun ic : nat * Color =>
         let '(i, c) := ic in
         (if LightState_eqb (state luz) (nth i [ROJO; AMARILLO; VERDE] ROJO)
          then c else (60, 60, 60),
          (x + 20, y + 20 + inject_Z (Z.of_nat i) * 40)%Q,
          12))
      (combine (seq 0 3) [COLOR_ROJO; COLOR_AMARILLO; COLOR_VERDE]).

(** *** Events and the main loop *)

(** The events [handle_events] tells apart. *)
Inductive Key : Type := K_ESCAPE | K_SPACE | K_OTHER.
Inductive Event : Type := QUIT | KEYDOWN (key : Key) | OTHER_EVENT.

(** The simulation together with the two flags of [Simulation]. *)
Record App : Type := mkApp {
  sim : Simulation;
  running : bool;
  paused : bool
}.

(** [__init__] sets [running = True] and [paused = False]. *)
Definition App_init : App :=
  {| sim := Simulation_init; running := true; paused := false |}.

(** The body of the loop of [handle_events] for one event. *)
Definition handle_event (a : App) (event : Event) : App :=
  match event with
  | QUIT => {| sim := sim a; running := false; paused := paused a |}
  | KEYDOWN K_ESCAPE => {| sim := sim a; running := false; paused := paused a |}
  | KEYDOWN K_SPACE => {| sim := sim a; running := running a; paused := negb (paused a) |}
  | KEYDOWN K_OTHER => a
  | OTHER_EVENT => a
  end.

(** [Simulation.handle_events] on the events [pygame.event.get()] returned. *)
Definition handle_events (a : App) (events : list Event) : App :=
  fold_left handle_event events a.

(** What one turn of the loop of [run] receives from pygame: the value of
    [self.clock.tick(FPS)], the value of [pygame.time.get_ticks()] and the
    pending events. *)
Record Frame : Type := mkFrame {
  tick : Z;
  ticks : Z;
  events : list Event
}.

(** The body of [while self.running] in [run]; drawing changes no state. *)
Definition run_iteration (a : App) (f : Frame) : Dist App :=
  let dt := (inject_Z (tick f) / 1000)%Q in
  let current_ms := ticks f in
  let a1 := handle_events a (events f) in
  if negb (paused a1) then
    bind (Simulation_update (sim a1) dt current_ms)
         (fun s' => ret {| sim := s'; running := running a1; paused := paused a1 |})
  else ret a1.

(** [run] on a finite supply of frames: the loop ends as soon as
    [self.running] is false at the top of the loop. *)
Fixpoint run (a : App) (frames : list Frame) : Dist App :=
  match frames with
  | [] => ret a
  | f :: rest =>
      if running a then bind (run_iteration a f) (fun a' => run a' rest)
      else ret a
  end.

(** *** Vocabulary of the further properties *)

(** Successive call times that never go back and are at most [delta]
    apart, starting from [prev]. *)
Fixpoint gaps_within (delta prev : Z) (times : list Z) : bool :=
  match times with
  | [] => true
  | t :: rest => (prev <=? t) && (t - prev <=? delta) && gaps_within delta t rest
  end.

(** Successive call times that never go back. *)
Fixpoint nondecreasing (prev : Z) (times : list Z) : bool :=
  match times with
  | [] => true
  | t :: rest => (prev <=? t) && nondecreasing t rest
  end.

(** An event that ends the program. *)
Definition is_quit (e : Event) : bool :=
  match e with
  | QUIT | KEYDOWN K_ESCAPE => true
  | _ => false
  end.

Definition is_space (e : Event) : bool :=
  match e with
  | KEYDOWN K_SPACE => true
  | _ => false
  end.

(** States reached when every frame lasts at most 1/24 s. *)
Inductive reachable_smooth : Simulation -> Prop :=
| smooth_init : reachable_smooth Simulation_init
| smooth_update (s s' : Simulation) (dt : Q) (current_ms : Z) :
    reachable_smooth s ->
    (0 <= dt)%Q -> (dt <= 1 # 24)%Q ->
    In s' (Simulation_update s dt current_ms) -> reachable_smooth s'.

(** A car on its lane, somewhere between its spawn point and the end of
    the brake band. *)
Definition on_lane (c : Car) : Prop :=
  speed c = 120%Q /\ length c = 25 /\
  (exists sp, In sp (spawners Simulation_init) /\
              direction c = sp_direction sp /\
              (across (direction c) (position c)
               == across (direction c) (position (spawned_Car sp)))%Q /\
              (progress (spawned_Car sp) <= progress c)%Q) /\
  (progress c < forward_sign (direction c) * exit_boundary (direction c) + 5)%Q.

(** For concrete instances: of the outcomes of a step, the first one
    (every spawner that fires draws 1500). *)
Definition first_outcome (s : Simulation) (dt : Q) (current_ms : Z) : Simulation :=
  hd s (Simulation_update s dt current_ms).

(** *** Vocabulary of the culling properties *)

(** States reached when no frame time is negative. *)
Inductive reachable_forward : Simulation -> Prop :=
| forward_init : reachable_forward Simulation_init
| forward_update (s s' : Simulation) (dt : Q) (current_ms : Z) :
    reachable_forward s ->
    (0 <= dt)%Q ->
    In s' (Simulation_update s dt current_ms) -> reachable_forward s'.

(** A car with the default speed and length on the lane of one of the
    four spawners. *)
Definition on_track (c : Car) : Prop :=
  speed c = 120%Q /\ length c = 25 /\
  exists sp, In sp (spawners Simulation_init) /\
             direction c = sp_direction sp /\
             (across (direction c) (position c)
              == across (direction c) (position (spawned_Car sp)))%Q.

(** Such a car, at or ahead of its spawn point. *)
Definition from_spawn (c : Car) : Prop :=
  speed c = 120%Q /\ length c = 25 /\
  exists sp, In sp (spawners Simulation_init) /\
             direction c = sp_direction sp /\
             (across (direction c) (position c)
              == across (direction c) (position (spawned_Car sp)))%Q /\
             (progress (spawned_Car sp) <= progress c)%Q.

(** At least one unit inside the limits beyond which [is_off_screen]
    holds. *)
Definition well_inside (c : Car) : Prop :=
  (- (49) <= vx (position c))%Q /\ (vx (position c) <= 949)%Q /\
  (- (49) <= vy (position c))%Q /\ (vy (position c) <= 649)%Q.

(** A car that compares equal to no car that is off screen. *)
Definition safe (c : Car) : Prop :=
  forall c' : Car, is_off_screen c' = true -> Car_eqb c c' = false.

(** The progress of a car of length 25 at the limit it leaves the screen
    through when it keeps its lane. *)
Definition screen_end (d : Direction) : Q :=
  match d with
  | NORTE | OESTE => 125 # 2
  | SUR => 1325 # 2
  | ESTE => 1925 # 2
  end.

(** Of two cars of one direction, the first is in the brake band or at
    least as far along as the second. *)
Definition ahead_cars (e r : Car) : Prop :=
  direction e = direction r ->
  in_brake_band e = true \/ (progress r <= progress e)%Q.

(** The first, on screen, does not compare equal to the second, off
    screen. *)
Definition separated (e r : Car) : Prop :=
  is_off_screen e = false -> is_off_screen r = true -> Car_eqb e r = false.

(** * Properties *)

(** ** Boolean tests *)

Lemma Qleb_le (a b : Q) : Qleb a b = true <-> (a <= b)%Q.
Proof. apply Qle_bool_iff. Qed.

Lemma Qltb_lt (a b : Q) : Qltb a b = true <-> (a < b)%Q.
Proof.
  unfold Qltb. rewrite negb_true_iff. split.
  - intros H. apply Qnot_le_lt. intros Hle.
    apply Qle_bool_iff in Hle. congruence.
  - intros H. destruct (Qle_bool b a) eqn:E; [|reflexivity].
    apply Qle_bool_iff in E. exfalso. eapply Qlt_not_le; eassumption.
Qed.

Lemma Qleb_false (a b : Q) : Qleb a b = false <-> (b < a)%Q.
Proof.
  rewrite <- Qltb_lt. unfold Qltb, Qleb.
  destruct (Qle_bool a b); simpl; split; congruence.
Qed.

Lemma Qltb_false (a b : Q) : Qltb a b = false <-> (b <= a)%Q.
Proof.
  rewrite <- Qleb_le. unfold Qltb, Qleb.
  destruct (Qle_bool b a); simpl; split; congruence.
Qed.

Lemma LightState_eqb_eq (a b : LightState) : LightState_eqb a b = true <-> a = b.
Proof. destruct a, b; simpl; split; congruence. Qed.

Lemma Direction_eqb_eq (a b : Direction) : Direction_eqb a b = true <-> a = b.
Proof. destruct a, b; simpl; split; congruence. Qed.

(** ** TrafficLight.update *)

Lemma TrafficLight_update_eq (l : TrafficLight) (ms : Z) :
  TrafficLight_update l ms =
  if ms - last_change_ms l >=? timeout_of (state l)
  then set_light l (next_state (state l)) ms
  else l.
Proof.
  unfold TrafficLight_update.
  destruct (state l); simpl;
    destruct (ms - last_change_ms l >=? _); reflexivity.
Qed.

Lemma TrafficLight_update_early (l : TrafficLight) (ms : Z) :
  ms - last_change_ms l < timeout_of (state l) -> TrafficLight_update l ms = l.
Proof.
  intros H. rewrite TrafficLight_update_eq.
  destruct (Z.geb_spec (ms - last_change_ms l) (timeout_of (state l))); [lia|reflexivity].
Qed.

Lemma TrafficLight_update_due (l : TrafficLight) (ms : Z) :
  timeout_of (state l) <= ms - last_change_ms l ->
  TrafficLight_update l ms = set_light l (next_state (state l)) ms.
Proof.
  intros H. rewrite TrafficLight_update_eq.
  destruct (Z.geb_spec (ms - last_change_ms l) (timeout_of (state l))); [reflexivity|lia].
Qed.

Lemma next_state_neq (s : LightState) : next_state s <> s.
Proof. destruct s; discriminate. Qed.

Lemma next_next_state_neq (s : LightState) : next_state (next_state s) <> s.
Proof. destruct s; discriminate. Qed.

(** C5.  A light that starts [VERDE] with [last_change_ms = 0] is still
    [VERDE] when updated at any time before 6000 ms, turns [AMARILLO] when
    updated at 6000 ms, stays so before 8000 ms, turns [ROJO] when updated
    at 8000 ms, stays so before 16000 ms, and is back to [VERDE], with its
    clock at 16000, when updated at 16000 ms: a period of 16000 ms. *)
Theorem cycle_determinism (p : Q * Q) (o : Direction) :
  let l0 := {| tl_position := p; orientation := o; last_change_ms := 0; state := VERDE |} in
  let l1 := TrafficLight_update l0 6000 in
  let l2 := TrafficLight_update l1 8000 in
  let l3 := TrafficLight_update l2 16000 in
  state l1 = AMARILLO /\ last_change_ms l1 = 6000 /\
  state l2 = ROJO /\ last_change_ms l2 = 8000 /\
  state l3 = VERDE /\ last_change_ms l3 = 16000 /\
  l3 = set_light l0 VERDE (0 + 16000) /\
  (forall t, t < 6000 -> TrafficLight_update l0 t = l0) /\
  (forall t, t < 8000 -> TrafficLight_update l1 t = l1) /\
  (forall t, t < 16000 -> TrafficLight_update l2 t = l2).
Proof.
  cbv zeta. repeat split; try reflexivity;
    intros t Ht; apply TrafficLight_update_early;
    cbn; unfold TIEMPO_VERDE, TIEMPO_AMARILLO; lia.
Qed.

Lemma cycle_determinism_witness :
  TrafficLight_update
    {| tl_position := (0, 0)%Q; orientation := NORTE; last_change_ms := 0; state := VERDE |}
    5999
  = {| tl_position := (0, 0)%Q; orientation := NORTE; last_change_ms := 0; state := VERDE |}.
Proof.
  destruct (cycle_determinism (0, 0)%Q NORTE) as (_ & _ & _ & _ & _ & _ & _ & H & _).
  apply H. lia.
Defined.

(** C6.  One call of [TrafficLight.update] either leaves the light
    untouched or moves it to the single next phase of the cycle and sets
    [last_change_ms] to the current time; it never advances two phases,
    however large the elapsed time.  The move happens exactly when the time
    spent in the current phase has reached that phase's duration. *)
Theorem at_most_one_transition (l : TrafficLight) (ms : Z) :
  let l' := TrafficLight_update l ms in
  (l' = l \/
   (state l' = next_state (state l) /\ last_change_ms l' = ms)) /\
  state l' <> next_state (next_state (state l)) /\
  tl_position l' = tl_position l /\
  orientation l' = orientation l /\
  (state l' <> state l <-> ms - last_change_ms l >= timeout_of (state l)) /\
  (state l' <> state l -> last_change_ms l' = ms).
Proof.
  cbv zeta. rewrite TrafficLight_update_eq.
  destruct (ms - last_change_ms l >=? timeout_of (state l)) eqn:E.
  - apply Z.geb_le in E. cbn.
    repeat split; try reflexivity.
    + right; split; reflexivity.
    + destruct (state l); discriminate.
    + intros _. lia.
    + intros _. apply next_state_neq.
  - assert (Hlt : ms - last_change_ms l < timeout_of (state l)).
    { destruct (Z.geb_spec (ms - last_change_ms l) (timeout_of (state l))); [discriminate|lia]. }
    repeat split; try reflexivity.
    + left; reflexivity.
    + intro H. symmetry in H. revert H. apply next_next_state_neq.
    + intros H. congruence.
    + intros H. lia.
    + intros H. congruence.
Qed.

Lemma at_most_one_transition_witness :
  let l := {| tl_position := (0, 0)%Q; orientation := NORTE;
              last_change_ms := 0; state := VERDE |} in
  state (TrafficLight_update l 100000) = AMARILLO /\
  last_change_ms (TrafficLight_update l 100000) = 100000.
Proof.
  cbv zeta. split.
  - reflexivity.
  - apply (at_most_one_transition
             {| tl_position := (0, 0)%Q; orientation := NORTE;
                last_change_ms := 0; state := VERDE |} 100000).
    discriminate.
Defined.

(** ** The two coordinated lights *)

Lemma update_lights_fst (ns ew : TrafficLight) (ms : Z) :
  fst (update_lights ns ew ms) = TrafficLight_update ns ms.
Proof.
  unfold update_lights.
  destruct (LightState_eqb (state (TrafficLight_update ns ms)) ROJO); reflexivity.
Qed.

Lemma update_lights_exclusive (ns ew : TrafficLight) (ms : Z) :
  both_non_red (fst (update_lights ns ew ms)) (snd (update_lights ns ew ms)) = false.
Proof.
  unfold update_lights, both_non_red.
  destruct (LightState_eqb (state (TrafficLight_update ns ms)) ROJO) eqn:E; simpl.
  - rewrite E. reflexivity.
  - apply andb_false_r.
Qed.

(** While the leader is not red the follower is held red and its clock is
    set to the current time. *)
Lemma follower_forced_red (ns ew : TrafficLight) (ms : Z) :
  state (TrafficLight_update ns ms) <> ROJO ->
  snd (update_lights ns ew ms) = set_light ew ROJO ms.
Proof.
  intros H. unfold update_lights.
  destruct (LightState_eqb (state (TrafficLight_update ns ms)) ROJO) eqn:E.
  - apply LightState_eqb_eq in E. contradiction.
  - reflexivity.
Qed.

(** While the leader is red a red follower keeps waiting, with its clock
    untouched, until 8000 ms have passed on that clock. *)
Lemma follower_red_until_timeout (ns ew : TrafficLight) (ms : Z) :
  state (TrafficLight_update ns ms) = ROJO ->
  state ew = ROJO ->
  ms - last_change_ms ew < TIEMPO_VERDE + TIEMPO_AMARILLO ->
  snd (update_lights ns ew ms) = ew.
Proof.
  intros Hns Hew Hlt. unfold update_lights. rewrite Hns. simpl.
  apply TrafficLight_update_early. rewrite Hew. exact Hlt.
Qed.

Lemma Simulation_update_lights (s s' : Simulation) (dt : Q) (ms : Z) :
  In s' (Simulation_update s dt ms) ->
  (traffic_light_ns s', traffic_light_ew s') =
  update_lights (traffic_light_ns s) (traffic_light_ew s) ms.
Proof.
  unfold Simulation_update.
  destruct (update_lights (traffic_light_ns s) (traffic_light_ew s) ms) as [ns ew].
  unfold bind. rewrite in_flat_map.
  intros [[[sps st] cs] [_ Hin]].
  destruct (update_cars dt [ns; ew] (heap st) cs) as [h cs'].
  destruct Hin as [<- | []]. reflexivity.
Qed.

(** C1.  Every outcome of a call of [Simulation.update], from any state
    whatsoever, has at least one of the two lights in [ROJO]; therefore
    every state the running program can reach has at least one of the two
    lights in [ROJO]. *)
Theorem mutual_exclusion :
  (forall (s s' : Simulation) (dt : Q) (current_ms : Z),
      In s' (Simulation_update s dt current_ms) ->
      both_non_red (traffic_light_ns s') (traffic_light_ew s') = false) /\
  (forall s : Simulation,
      reachable s ->
      both_non_red (traffic_light_ns s) (traffic_light_ew s) = false).
Proof.
  assert (Hstep : forall (s s' : Simulation) (dt : Q) (current_ms : Z),
      In s' (Simulation_update s dt current_ms) ->
      both_non_red (traffic_light_ns s') (traffic_light_ew s') = false).
  { intros s s' dt ms Hin.
    apply Simulation_update_lights in Hin.
    pose proof (update_lights_exclusive (traffic_light_ns s) (traffic_light_ew s) ms) as H.
    rewrite <- Hin in H. exact H. }
  split; [exact Hstep|].
  intros s Hr. destruct Hr as [|s s' dt ms _ Hin].
  - reflexivity.
  - eapply Hstep; eassumption.
Qed.

Lemma mutual_exclusion_witness :
  both_non_red (traffic_light_ns Simulation_init) (traffic_light_ew Simulation_init) = false /\
  let s := {| traffic_light_ns := traffic_light_ns Simulation_init;
              traffic_light_ew := set_light (traffic_light_ew Simulation_init) VERDE 0;
              store := store Simulation_init;
              cars := [];
              spawners := map (fun sp => set_next_spawn sp 9000) (spawners Simulation_init) |} in
  let s' := hd s (Simulation_update s (1 # 60) 6000) in
  both_non_red (traffic_light_ns s) (traffic_light_ew s) = true /\
  both_non_red (traffic_light_ns s') (traffic_light_ew s') = false.
Proof.
  split.
  - apply (proj2 mutual_exclusion Simulation_init).
    apply reachable_init.
  - cbv zeta. split; [reflexivity|].
    match goal with
    | |- both_non_red (traffic_light_ns (hd ?s ?l)) _ = false =>
        apply (proj1 mutual_exclusion s (hd s l) (1 # 60)%Q 6000)
    end.
    vm_compute. left. reflexivity.
Defined.

(** C7, evaluated.  [Simulation.update] is called once per second from the
    initial state.  The rows give the leader's phase, the follower's phase
    and the follower's [last_change_ms] after the calls at 1000, ..., 16000.
    The leader turns [ROJO] at T = 8000.  The follower's clock then reads
    7000, the time of the previous call; the follower is still [ROJO] at
    T + 6000 = 14000, turns [VERDE] at 15000 and is forced back to [ROJO]
    at T + 8000 = 16000, when the leader turns [VERDE].  It is never
    [AMARILLO]. *)
Theorem follower_slaving_trace :
  map (fun p => (state (fst p), state (snd p), last_change_ms (snd p)))
      (lights_trace lights_init every_second)
  = [ (VERDE, ROJO, 1000); (VERDE, ROJO, 2000); (VERDE, ROJO, 3000);
      (VERDE, ROJO, 4000); (VERDE, ROJO, 5000);
      (AMARILLO, ROJO, 6000); (AMARILLO, ROJO, 7000);
      (ROJO, ROJO, 7000); (ROJO, ROJO, 7000); (ROJO, ROJO, 7000);
      (ROJO, ROJO, 7000); (ROJO, ROJO, 7000); (ROJO, ROJO, 7000);
      (ROJO, ROJO, 7000);
      (ROJO, VERDE, 15000);
      (VERDE, ROJO, 16000) ].
Proof. vm_compute. reflexivity. Qed.

(** The same run at one call per 16 ms frame: over the whole 16000 ms
    cycle the follower is [VERDE] after exactly one call and never
    [AMARILLO], while the leader is [ROJO] after 500 of the 1000 calls. *)
Lemma follower_slaving_frames :
  let tr := lights_trace lights_init every_frame in
  List.length (filter (fun p => LightState_eqb (state (snd p)) VERDE) tr) = 1%nat /\
  List.length (filter (fun p => LightState_eqb (state (snd p)) AMARILLO) tr) = 0%nat /\
  List.length (filter (fun p => LightState_eqb (state (fst p)) ROJO) tr) = 500%nat.
Proof. vm_compute. repeat split. Qed.

(** ** Car.update *)

Lemma brake_check_eq (c : Car) (d : Q * Q) :
  brake_check c d = if in_brake_band c then halted c d else d.
Proof.
  destruct d as [dx dy].
  unfold brake_check, in_brake_band, halted, leading_edge.
  destruct (direction c); simpl;
    repeat match goal with
           | |- context [Qleb ?a ?b] => destruct (Qleb a b); simpl
           | |- context [Qltb ?a ?b] => destruct (Qltb a b); simpl
           end; reflexivity.
Qed.

Lemma halted_idem (c : Car) (d : Q * Q) : halted c (halted c d) = halted c d.
Proof. unfold halted. destruct (direction c); reflexivity. Qed.

Lemma brake_loop_halted (c : Car) (luces : list TrafficLight) (d : Q * Q) :
  in_brake_band c = true ->
  brake_loop c luces (halted c d) = halted c d.
Proof.
  intros Hb. unfold brake_loop.
  induction luces as [|luz rest IH]; simpl; [reflexivity|].
  destruct (negb (is_green_for luz (direction c))); [|exact IH].
  rewrite brake_check_eq, Hb, halted_idem. exact IH.
Qed.

Lemma brake_loop_eq (c : Car) (luces : list TrafficLight) (d : Q * Q) :
  brake_loop c luces d =
  if in_brake_band c && some_light_not_green luces (direction c)
  then halted c d else d.
Proof.
  unfold some_light_not_green.
  destruct (in_brake_band c) eqn:Hb; simpl.
  - revert d. induction luces as [|luz rest IH]; intros d; simpl; [reflexivity|].
    unfold brake_loop in *. simpl.
    destruct (negb (is_green_for luz (direction c))); simpl.
    + rewrite brake_check_eq, Hb. apply (brake_loop_halted c rest d Hb).
    + apply IH.
  - revert d. unfold brake_loop.
    induction luces as [|luz rest IH]; intros d; simpl; [reflexivity|].
    destruct (negb (is_green_for luz (direction c))); [|apply IH].
    rewrite brake_check_eq, Hb. apply IH.
Qed.

Lemma halted_intended (c : Car) (dt : Q) :
  halted c (intended_displacement c dt) = (0, 0)%Q.
Proof. unfold halted, intended_displacement. destruct (direction c); reflexivity. Qed.

(** What [Car.update] adds to the position: nothing when the leading edge
    is in the band and some light of the list is not green for the car,
    the intended displacement otherwise. *)
Lemma displacement_eq (c : Car) (dt : Q) (luces : list TrafficLight) :
  displacement c dt luces =
  if in_brake_band c && some_light_not_green luces (direction c)
  then (0, 0)%Q else intended_displacement c dt.
Proof.
  unfold displacement. rewrite brake_loop_eq.
  destruct (in_brake_band c && some_light_not_green luces (direction c));
    [apply halted_intended|reflexivity].
Qed.

Lemma Car_update_position (c : Car) (dt : Q) (luces : list TrafficLight) :
  position (Car_update c dt luces) =
  {| vx := vx (position c) + fst (displacement c dt luces);
     vy := vy (position c) + snd (displacement c dt luces) |}%Q.
Proof. unfold Car_update. destruct (displacement c dt luces); reflexivity. Qed.

Lemma Car_update_fields (c : Car) (dt : Q) (luces : list TrafficLight) :
  direction (Car_update c dt luces) = direction c /\
  speed (Car_update c dt luces) = speed c /\
  length (Car_update c dt luces) = length c /\
  width (Car_update c dt luces) = width c.
Proof. unfold Car_update. destruct (displacement c dt luces); repeat split. Qed.

(** C10.  [Car.update] keeps [direction], [speed], [length] and [width];
    it adds to the position either nothing or the intended displacement,
    so the coordinate across the direction of travel keeps its value and
    the advance along the direction of travel is 0 or [speed * dt]; with
    [speed * dt] not negative the car does not move backwards. *)
Theorem kinematics_frame (c : Car) (dt : Q) (luces : list TrafficLight) :
  let c' := Car_update c dt luces in
  direction c' = direction c /\ speed c' = speed c /\
  length c' = length c /\ width c' = width c /\
  (displacement c dt luces = (0, 0)%Q \/
   displacement c dt luces = intended_displacement c dt) /\
  (across (direction c) (position c') == across (direction c) (position c))%Q /\
  ((advance c c' == 0)%Q \/ (advance c c' == speed c * dt)%Q) /\
  ((0 <= speed c * dt)%Q -> (0 <= advance c c')%Q).
Proof.
  cbv zeta.
  destruct (Car_update_fields c dt luces) as (Hd & Hs & Hl & Hw).
  repeat (split; [assumption|]).
  assert (Hcases : displacement c dt luces = (0, 0)%Q \/
                   displacement c dt luces = intended_displacement c dt).
  { rewrite displacement_eq.
    destruct (in_brake_band c && some_light_not_green luces (direction c)); auto. }
  split; [exact Hcases|].
  unfold advance. rewrite Car_update_position.
  destruct Hcases as [H | H]; rewrite H; unfold intended_displacement, across, along, forward_sign;
    destruct (direction c); simpl; repeat split; try (intros; lra); try (left; lra); try (right; lra).
Qed.

Lemma kinematics_frame_witness :
  let c := car_at NORTE 470 630 in
  (0 <= advance c (Car_update c (1 # 60) (lights_in VERDE ROJO 0 0)))%Q.
Proof.
  cbv zeta.
  apply (kinematics_frame (car_at NORTE 470 630) (1 # 60) (lights_in VERDE ROJO 0 0)).
  vm_compute. discriminate.
Defined.

(** C10, the unguarded case.  [Car.update] does not look at the sign of
    [dt]: with [dt = -1/2] a northbound car at y = 630 is moved to y = 690,
    60 units against its direction of travel. *)
Lemma backward_with_negative_dt :
  let c := car_at NORTE 470 630 in
  let c' := Car_update c (- (1 # 2)) (lights_in VERDE ROJO 0 0) in
  ~ (0 <= advance c c')%Q /\
  (advance c c' == - (60))%Q /\
  (vy (position c') == 690)%Q.
Proof.
  cbv zeta. split; [|split].
  - vm_compute. intros H. apply H. reflexivity.
  - reflexivity.
  - reflexivity.
Qed.

(** *** Where the brake band lies *)

Lemma stop_line_y_val : (stop_line_y == 260)%Q.
Proof. reflexivity. Qed.

Lemma stop_line_x_val : (stop_line_x == 410)%Q.
Proof. reflexivity. Qed.

Lemma road_edges :
  (road_top == 260)%Q /\ (road_bottom == 340)%Q /\
  (road_left == 410)%Q /\ (road_right == 490)%Q.
Proof. repeat split. Qed.

(** Every spawner of the simulation places its car before the entry
    border of the intersection, and the entry border comes before the exit
    border along the direction of travel. *)
Lemma spawn_before_entry :
  forallb
    (fun sp =>
       let d := sp_direction sp in
       Qltb (progress (spawned_Car sp)) (forward_sign d * entry_boundary d)
       && Qltb (forward_sign d * entry_boundary d) (forward_sign d * exit_boundary d))
    (spawners Simulation_init) = true.
Proof. vm_compute. reflexivity. Qed.

(** The band in which [Car.update] brakes starts at the exit border of the
    intersection and extends 5 units beyond it. *)
Lemma brake_band_past_exit (c : Car) :
  in_brake_band c = true <->
  (forward_sign (direction c) * exit_boundary (direction c) <= progress c
   /\ progress c < forward_sign (direction c) * exit_boundary (direction c) + 5)%Q.
Proof.
  pose proof stop_line_y_val as Hy. pose proof stop_line_x_val as Hx.
  destruct road_edges as (Ht & Hb & Hl & Hr).
  unfold in_brake_band, progress, forward_sign, exit_boundary.
  destruct (direction c); rewrite andb_true_iff, Qleb_le, Qltb_lt; lra.
Qed.

(** A car whose leading edge has not yet reached the exit border is never
    braked, whatever the lights show. *)
Lemma no_brake_before_exit (c : Car) (dt : Q) (luces : list TrafficLight) :
  (progress c < forward_sign (direction c) * exit_boundary (direction c))%Q ->
  displacement c dt luces = intended_displacement c dt.
Proof.
  intros H. rewrite displacement_eq.
  destruct (in_brake_band c) eqn:Hb; [|reflexivity].
  apply brake_band_past_exit in Hb. lra.
Qed.

(** A car whose leading edge is 5 units or more beyond the exit border is
    never braked either. *)
Lemma no_brake_beyond_band (c : Car) (dt : Q) (luces : list TrafficLight) :
  (forward_sign (direction c) * exit_boundary (direction c) + 5 <= progress c)%Q ->
  displacement c dt luces = intended_displacement c dt.
Proof.
  intros H. rewrite displacement_eq.
  destruct (in_brake_band c) eqn:Hb; [|reflexivity].
  apply brake_band_past_exit in Hb. lra.
Qed.

(** Of the two lights of the simulation, the one on the other axis is never
    green for the car, so the list always holds a light that is not green. *)
Lemma other_axis_not_green (sn se : LightState) (tn te : Z) (d : Direction) :
  some_light_not_green (lights_in sn se tn te) d = true.
Proof. destruct d, sn, se; reflexivity. Qed.

(** Hence a car in the band is stopped whatever the two lights show. *)
Lemma band_always_halts (c : Car) (dt : Q) (sn se : LightState) (tn te : Z) :
  in_brake_band c = true ->
  displacement c dt (lights_in sn se tn te) = (0, 0)%Q.
Proof.
  intros Hb. rewrite displacement_eq, Hb, other_axis_not_green. reflexivity.
Qed.

Lemma in_brake_band_ext (c c' : Car) :
  direction c = direction c' -> length c = length c' ->
  (vx (position c) == vx (position c'))%Q ->
  (vy (position c) == vy (position c'))%Q ->
  in_brake_band c = in_brake_band c'.
Proof.
  intros Hd Hl Hx Hy.
  unfold in_brake_band, leading_edge, half_length, Qleb, Qltb.
  rewrite <- Hd, <- Hl.
  destruct (direction c); rewrite ?Hx, ?Hy; reflexivity.
Qed.

(** A stopped car stays where it is for ever. *)
Lemma halted_for_ever (c : Car) (dt : Q) (luces : list TrafficLight) (n : nat) :
  in_brake_band c = true ->
  some_light_not_green luces (direction c) = true ->
  let c' := Car_update_n n c dt luces in
  (vx (position c') == vx (position c))%Q /\
  (vy (position c') == vy (position c))%Q /\
  in_brake_band c' = true.
Proof.
  cbv zeta. revert c. induction n as [|n IH]; intros c Hb Hl; simpl.
  - repeat split; try reflexivity. exact Hb.
  - destruct (Car_update_fields c dt luces) as (Hd & _ & Hlen & _).
    assert (Hpos := Car_update_position c dt luces).
    rewrite displacement_eq, Hb, Hl in Hpos. simpl in Hpos.
    assert (Hx : (vx (position (Car_update c dt luces)) == vx (position c))%Q)
      by (rewrite Hpos; simpl; lra).
    assert (Hy : (vy (position (Car_update c dt luces)) == vy (position c))%Q)
      by (rewrite Hpos; simpl; lra).
    assert (Hb' : in_brake_band (Car_update c dt luces) = true)
      by (rewrite (in_brake_band_ext _ c Hd Hlen Hx Hy); exact Hb).
    destruct (IH (Car_update c dt luces) Hb') as (Ix & Iy & Ib).
    { rewrite Hd. exact Hl. }
    repeat split.
    + rewrite Ix. exact Hx.
    + rewrite Iy. exact Hy.
    + exact Ib.
Qed.

(** *** Evaluations of [Car.update] *)

(** C2, evaluated.  A northbound car at (470, 272) has its leading edge at
    259.5.  The north-south light is [VERDE], so it is green for the car;
    the east-west light is [ROJO].  The loop of [Car.update] also visits the
    east-west light, which is not green for a northbound car, and zeroes the
    displacement: the car stays at y = 272 although its intended
    displacement is -2.  With the north-south light alone the car would
    move.  The place is the one the first northbound car reaches 179 frames
    after it was spawned at (470, 630), while its light is still [VERDE];
    it is found there after 180 and after 300 frames as well. *)
Theorem green_light_still_brakes :
  let ns := traffic_light_ns Simulation_init in
  let ew := traffic_light_ew Simulation_init in
  let c := car_at NORTE 470 272 in
  state ns = VERDE /\ state ew = ROJO /\
  is_green_for ns (direction c) = true /\
  is_green_for ew (direction c) = false /\
  displacement c (1 # 60) [ns; ew] = (0, 0)%Q /\
  (snd (intended_displacement c (1 # 60)) == - (2))%Q /\
  (vy (position (Car_update c (1 # 60) [ns; ew])) == 272)%Q /\
  displacement c (1 # 60) [ns] = intended_displacement c (1 # 60) /\
  let c0 := spawned_Car (new_Spawner NORTE (470, 630)%Q) in
  (vy (position (Car_update_n 179 c0 (1 # 60) [ns; ew])) == 272)%Q /\
  (vy (position (Car_update_n 180 c0 (1 # 60) [ns; ew])) == 272)%Q /\
  (vy (position (Car_update_n 300 c0 (1 # 60) [ns; ew])) == 272)%Q.
Proof. vm_compute. repeat split. Qed.

(** C3, evaluated.  A northbound car at (470, 272.5) occupies y in
    [260, 285], inside the crossing road [260, 340]: its leading edge is 80
    units beyond the border through which it entered.  Whatever the two
    lights show, [Car.update] adds nothing to its position, and the car is
    still there after any number of calls.  A car that is 40 units further
    back, in the middle of the intersection, reaches that place after 20
    frames and stops there. *)
Theorem committed_car_is_halted (sn se : LightState) (tn te : Z) (n : nat) :
  let luces := lights_in sn se tn te in
  let c := car_at NORTE 470 (545 # 2) in
  let c0 := car_at NORTE 470 (625 # 2) in
  (leading_edge c == road_top)%Q /\
  (leading_edge c + inject_Z (length c) <= road_bottom)%Q /\
  (forward_sign NORTE * entry_boundary NORTE + 80 == progress c)%Q /\
  displacement c (1 # 60) luces = (0, 0)%Q /\
  (vy (position (Car_update_n n c (1 # 60) luces)) == 545 # 2)%Q /\
  (vy (position (Car_update_n 20 c0 (1 # 60) luces)) == 545 # 2)%Q /\
  (vy (position (Car_update_n (20 + n) c0 (1 # 60) luces)) == 545 # 2)%Q.
Proof.
  cbv zeta.
  assert (Hb : in_brake_band (car_at NORTE 470 (545 # 2)) = true) by reflexivity.
  assert (H20 : forall m,
             Car_update_n (20 + m) (car_at NORTE 470 (625 # 2)) (1 # 60) (lights_in sn se tn te)
             = Car_update_n m (Car_update_n 20 (car_at NORTE 470 (625 # 2)) (1 # 60)
                                 (lights_in sn se tn te))
                 (1 # 60) (lights_in sn se tn te)).
  { intros m. generalize (car_at NORTE 470 (625 # 2)). generalize 20%nat.
    intros k. induction k as [|k IH]; intros c; simpl; [reflexivity|apply IH]. }
  assert (Hc20 : in_brake_band (Car_update_n 20 (car_at NORTE 470 (625 # 2)) (1 # 60)
                                  (lights_in sn se tn te)) = true
                 /\ (vy (position (Car_update_n 20 (car_at NORTE 470 (625 # 2)) (1 # 60)
                                     (lights_in sn se tn te))) == 545 # 2)%Q
                 /\ direction (Car_update_n 20 (car_at NORTE 470 (625 # 2)) (1 # 60)
                                 (lights_in sn se tn te)) = NORTE).
  { destruct sn, se; vm_compute; repeat split. }
  destruct Hc20 as (Hb20 & Hy20 & Hd20).
  repeat split.
  - vm_compute. discriminate.
  - apply band_always_halts. exact Hb.
  - destruct (halted_for_ever (car_at NORTE 470 (545 # 2)) (1 # 60)
                (lights_in sn se tn te) n Hb (other_axis_not_green sn se tn te _))
      as (_ & Hy & _).
    rewrite Hy. reflexivity.
  - exact Hy20.
  - rewrite H20.
    destruct (halted_for_ever _ (1 # 60) (lights_in sn se tn te) n Hb20
                (other_axis_not_green sn se tn te _)) as (_ & Hy & _).
    rewrite Hy. exact Hy20.
Qed.

(** C4, evaluated.  A northbound car at (470, 355) has its leading edge at
    342.5, inside the 5 units that precede the border y = 340 through which
    it enters the intersection.  Its light is [ROJO] or [AMARILLO], hence
    not green for it.  [Car.update] does not brake: the displacement is the
    intended one, -2, and the car moves on to y = 353. *)
Theorem approach_band_does_not_halt (sn se : LightState) (tn te : Z) :
  let luces := lights_in sn se tn te in
  let c := car_at NORTE 470 355 in
  (entry_boundary NORTE < leading_edge c)%Q /\
  (leading_edge c < entry_boundary NORTE + 5)%Q /\
  is_green_for (set_light (traffic_light_ns Simulation_init) ROJO tn) NORTE = false /\
  is_green_for (set_light (traffic_light_ns Simulation_init) AMARILLO tn) NORTE = false /\
  displacement c (1 # 60) luces = intended_displacement c (1 # 60) /\
  (snd (displacement c (1 # 60) luces) == - (2))%Q /\
  (vy (position (Car_update c (1 # 60) luces)) == 353)%Q.
Proof.
  cbv zeta.
  assert (Hd : displacement (car_at NORTE 470 355) (1 # 60) (lights_in sn se tn te)
               = intended_displacement (car_at NORTE 470 355) (1 # 60)).
  { apply no_brake_before_exit. vm_compute. reflexivity. }
  repeat split; try reflexivity.
  - exact Hd.
  - rewrite Hd. reflexivity.
  - rewrite Car_update_position, Hd. reflexivity.
Qed.

(** What the band does where the source puts it: a car whose leading edge
    is in the band and one of whose lights is not green is stopped, and a
    car outside the band always gets its intended displacement. *)
Lemma band_halts (c : Car) (dt : Q) (luces : list TrafficLight) :
  (in_brake_band c = true -> some_light_not_green luces (direction c) = true ->
   displacement c dt luces = (0, 0)%Q) /\
  (in_brake_band c = false -> displacement c dt luces = intended_displacement c dt) /\
  (some_light_not_green luces (direction c) = false ->
   displacement c dt luces = intended_displacement c dt).
Proof.
  rewrite displacement_eq. repeat split.
  - intros -> ->. reflexivity.
  - intros ->. reflexivity.
  - intros ->. rewrite andb_false_r. reflexivity.
Qed.

(** ** Spawner.update *)

Lemma bind_ret_map {A B : Type} (f : A -> B) (l : Dist A) :
  bind l (fun a => ret (f a)) = map f l.
Proof.
  unfold bind, ret. induction l as [|a l IH]; simpl; [reflexivity|].
  rewrite IH. reflexivity.
Qed.

Lemma randint_In (a b u : Z) : In u (randint a b) <-> a <= u <= b.
Proof.
  unfold randint. rewrite in_map_iff. split.
  - intros (k & <- & Hk). apply in_seq in Hk. lia.
  - intros H. exists (Z.to_nat (u - a)). split; [lia|].
    apply in_seq. lia.
Qed.

Lemma randint_NoDup (a b : Z) : NoDup (randint a b).
Proof.
  unfold randint. apply NoDup_map_NoDup_ForallPairs; [|apply seq_NoDup].
  intros x y _ _ H. lia.
Qed.

Lemma randint_length (a b : Z) : List.length (randint a b) = Z.to_nat (b - a + 1).
Proof. unfold randint. rewrite length_map, length_seq. reflexivity. Qed.

Lemma heap_set_same (h : Heap) (r : Ref) (c : Car) : heap_set h r c r = c.
Proof. unfold heap_set. rewrite Nat.eqb_refl. reflexivity. Qed.

Lemma heap_set_other (h : Heap) (r r' : Ref) (c : Car) :
  r' <> r -> heap_set h r c r' = h r'.
Proof.
  intros H. unfold heap_set.
  destruct (Nat.eqb_spec r' r); [contradiction|reflexivity].
Qed.

Lemma Spawner_update_fired (sp : Spawner) (ms : Z) (st : CarStore) (cs : list Ref) :
  next_spawn_ms sp <= ms ->
  Spawner_update sp ms st cs =
  map (fun u => (set_next_spawn sp (ms + u), snd (alloc st (spawned_Car sp)),
                 cs ++ [next_ref st]))
      (randint (fst (interval_range sp)) (snd (interval_range sp))).
Proof.
  intros Hle. unfold Spawner_update, alloc.
  destruct (Z.geb_spec ms (next_spawn_ms sp)); [|lia].
  apply (bind_ret_map
           (fun u => (set_next_spawn sp (ms + u),
                      {| heap := heap_set (heap st) (next_ref st) (spawned_Car sp);
                         next_ref := S (next_ref st) |},
                      cs ++ [next_ref st]))).
Qed.

(** C8.  For a spawner with the default [interval_range] and a call at
    [current_ms >= next_spawn_ms]: the values of [next_spawn_ms] over the
    outcomes are [current_ms + 1500], [current_ms + 1501], ...,
    [current_ms + 4000], each exactly once (2501 equiprobable draws); in
    every outcome the list is the old list followed by one new reference,
    the store holds at that reference the car with the spawner's
    direction, its spawn position, speed 120, length 25 and width 15, every
    other object and the spawner's other fields are untouched.  When
    [current_ms < next_spawn_ms] the only outcome leaves spawner, store and
    list as they were. *)
Theorem spawner_cadence (sp : Spawner) (current_ms : Z) (st : CarStore) (cs : list Ref) :
  interval_range sp = (1500, 4000) ->
  (next_spawn_ms sp <= current_ms ->
     map (fun o => next_spawn_ms (fst (fst o))) (Spawner_update sp current_ms st cs)
     = map (fun k => current_ms + 1500 + Z.of_nat k) (seq 0 2501)
     /\
     Forall (fun o =>
               snd o = cs ++ [next_ref st] /\
               next_ref (snd (fst o)) = S (next_ref st) /\
               heap (snd (fst o)) (next_ref st)
               = {| direction := sp_direction sp;
                    position := {| vx := fst (spawn_pos sp); vy := snd (spawn_pos sp) |};
                    speed := 120; length := 25; width := 15 |} /\
               (forall r, r <> next_ref st -> heap (snd (fst o)) r = heap st r) /\
               sp_direction (fst (fst o)) = sp_direction sp /\
               spawn_pos (fst (fst o)) = spawn_pos sp /\
               interval_range (fst (fst o)) = interval_range sp /\
               current_ms + 1500 <= next_spawn_ms (fst (fst o)) <= current_ms + 4000)
            (Spawner_update sp current_ms st cs))
  /\
  (current_ms < next_spawn_ms sp ->
     Spawner_update sp current_ms st cs = [(sp, st, cs)]).
Proof.
  intros Hr. split.
  - intros Hle. rewrite (Spawner_update_fired sp current_ms st cs Hle), Hr.
    simpl fst. simpl snd. split.
    + rewrite map_map. unfold randint. rewrite map_map.
      change (Z.to_nat (4000 - 1500 + 1)) with 2501%nat.
      apply map_ext. intros k. unfold set_next_spawn. cbn [fst snd next_spawn_ms]. lia.
    + apply Forall_forall. intros o Ho.
      apply in_map_iff in Ho. destruct Ho as (u & <- & Hu).
      apply randint_In in Hu. simpl.
      split; [reflexivity|]. split; [reflexivity|].
      split; [apply heap_set_same|].
      split; [intros r Hne; apply heap_set_other; exact Hne|].
      split; [reflexivity|]. split; [reflexivity|]. split; [exact Hr|lia].
  - intros Hlt. unfold Spawner_update.
    destruct (Z.geb_spec current_ms (next_spawn_ms sp)); [lia|reflexivity].
Qed.

Lemma spawner_cadence_witness :
  let sp := new_Spawner NORTE (470, 630)%Q in
  let st := store Simulation_init in
  map (fun o => next_spawn_ms (fst (fst o))) (Spawner_update sp 16 st [])
  = map (fun k => 16 + 1500 + Z.of_nat k) (seq 0 2501)
  /\ Spawner_update (set_next_spawn sp 2000) 16 st [] = [(set_next_spawn sp 2000, st, [])].
Proof.
  cbv zeta. split.
  - apply (spawner_cadence (new_Spawner NORTE (470, 630)%Q) 16 (store Simulation_init) []).
    + reflexivity.
    + simpl. lia.
  - apply (spawner_cadence (set_next_spawn (new_Spawner NORTE (470, 630)%Q) 2000) 16
             (store Simulation_init) []).
    + reflexivity.
    + simpl. lia.
Defined.

(** ** Culling *)

Lemma is_off_screen_spec (c : Car) :
  is_off_screen c = true <->
  (vx (position c) < - (50) \/ inject_Z ANCHO_PANTALLA + 50 < vx (position c) \/
   vy (position c) < - (50) \/ inject_Z ALTO_PANTALLA + 50 < vy (position c))%Q.
Proof.
  unfold is_off_screen. rewrite !orb_true_iff, !Qltb_lt. tauto.
Qed.

Lemma Qltb_comp (a a' b b' : Q) : (a == a')%Q -> (b == b')%Q -> Qltb a b = Qltb a' b'.
Proof. intros Ha Hb. unfold Qltb. rewrite Ha, Hb. reflexivity. Qed.

(** What [Car.__eq__] tells about two cars that compare equal. *)
Lemma Car_eqb_close (a b : Car) :
  Car_eqb a b = true ->
  direction a = direction b /\ length a = length b /\
  (- VECTOR_EPSILON < vx (position a) - vx (position b))%Q /\
  (vx (position a) - vx (position b) < VECTOR_EPSILON)%Q /\
  (- VECTOR_EPSILON < vy (position a) - vy (position b))%Q /\
  (vy (position a) - vy (position b) < VECTOR_EPSILON)%Q.
Proof.
  unfold Car_eqb, Vector2_eqb. rewrite !andb_true_iff.
  intros ((((Hd & Hx & Hy) & _) & Hl) & _).
  apply Direction_eqb_eq in Hd. apply Z.eqb_eq in Hl.
  apply Qltb_lt, Qabs_Qlt_condition in Hx.
  apply Qltb_lt, Qabs_Qlt_condition in Hy.
  tauto.
Qed.

Lemma Car_eqb_refl (c : Car) : Car_eqb c c = true.
Proof.
  unfold Car_eqb, Vector2_eqb. rewrite !andb_true_iff.
  assert (Hz : forall x : Q, Qltb (Qabs (x - x)) VECTOR_EPSILON = true).
  { intros x. apply Qltb_lt. apply Qabs_Qlt_condition. unfold VECTOR_EPSILON. split; lra. }
  repeat split; auto.
  - apply Direction_eqb_eq. reflexivity.
  - apply Qeq_bool_refl.
  - apply Z.eqb_refl.
  - apply Z.eqb_refl.
Qed.

(** A car well inside the screen is mistaken for no car off screen. *)
Lemma well_inside_safe (c : Car) : well_inside c -> safe c.
Proof.
  intros (H1 & H2 & H3 & H4) c' Hoff.
  destruct (Car_eqb c c') eqn:E; [|reflexivity]. exfalso.
  apply Car_eqb_close in E. destruct E as (_ & _ & X1 & X2 & Y1 & Y2).
  apply is_off_screen_spec in Hoff.
  unfold VECTOR_EPSILON, ANCHO_PANTALLA, ALTO_PANTALLA, inject_Z in *.
  destruct Hoff as [H | [H | [H | H]]]; lra.
Qed.

Lemma safe_on_screen (c : Car) : safe c -> is_off_screen c = false.
Proof.
  intros Hs. destruct (is_off_screen c) eqn:E; [|reflexivity].
  pose proof (Hs c E) as H. rewrite Car_eqb_refl in H. discriminate.
Qed.

(** *** [list.remove] *)

Lemma remove_first_skip (p : Ref -> bool) (pre post : list Ref) (r : Ref) :
  (forall e, In e pre -> p e = false) -> p r = true ->
  remove_first p (pre ++ r :: post) = pre ++ post.
Proof.
  intros Hpre Hr. induction pre as [|e pre IH]; simpl.
  - rewrite Hr. reflexivity.
  - rewrite (Hpre e (or_introl eq_refl)). f_equal.
    apply IH. intros e' He'. apply Hpre. right. exact He'.
Qed.

Lemma remove_first_incl (p : Ref -> bool) (l : list Ref) :
  incl (remove_first p l) l.
Proof.
  induction l as [|e l IH]; simpl; [intros x []|].
  destruct (p e).
  - intros x Hx. right. exact Hx.
  - intros x [<- | Hx]; [left; reflexivity|right; apply IH; exact Hx].
Qed.

Lemma remove_first_NoDup (p : Ref -> bool) (l : list Ref) :
  NoDup l -> NoDup (remove_first p l).
Proof.
  induction 1 as [|e l Hn Hnd IH]; simpl; [constructor|].
  destruct (p e); [exact Hnd|].
  constructor; [|exact IH].
  intros H. apply Hn. apply (remove_first_incl p l). exact H.
Qed.

Lemma remove_first_keeps (p : Ref -> bool) (l : list Ref) (x : Ref) :
  In x l -> p x = false -> In x (remove_first p l).
Proof.
  intros Hin Hp. induction l as [|e l IH]; simpl; [destruct Hin|].
  destruct (p e) eqn:E.
  - destruct Hin as [-> | Hin]; [congruence|exact Hin].
  - destruct Hin as [-> | Hin]; [left; reflexivity|right; apply IH; exact Hin].
Qed.

Lemma remove_first_app (p : Ref -> bool) (l1 l2 : list Ref) :
  existsb p l1 = true -> remove_first p (l1 ++ l2) = remove_first p l1 ++ l2.
Proof.
  induction l1 as [|e l1 IH]; simpl; [discriminate|].
  destruct (p e); simpl; [reflexivity|].
  intros H. rewrite (IH H). reflexivity.
Qed.

(** *** The loop over the cars *)

(** The loop of [Simulation.update], started in the middle: the cars of
    [done] have been visited, those of [todo] are still to come, and
    [kept] is what is left of [done] in the list.  Every listed car is
    updated exactly once and no other object is touched; the list stays
    free of duplicates and loses no car that is [safe]. *)
Lemma update_cars_pass (dt : Q) (luces : list TrafficLight) (h0 : Heap) :
  forall (todo done kept : list Ref) (h : Heap),
    NoDup (done ++ todo) ->
    NoDup (kept ++ todo) ->
    incl kept done ->
    (forall r, In r done -> h r = Car_update (h0 r) dt luces) ->
    (forall r, ~ In r done -> h r = h0 r) ->
    (forall x, In x done -> safe (Car_update (h0 x) dt luces) -> In x kept) ->
    let res := fold_left (car_step dt luces) todo (h, kept ++ todo) in
    (forall r, In r (done ++ todo) -> fst res r = Car_update (h0 r) dt luces) /\
    (forall r, ~ In r (done ++ todo) -> fst res r = h0 r) /\
    NoDup (snd res) /\
    incl (snd res) (done ++ todo) /\
    (forall x, In x (done ++ todo) -> safe (Car_update (h0 x) dt luces) -> In x (snd res)).
Proof.
  induction todo as [|r todo IH]; intros done kept h Hnd Hnk Hinc Hdone Hrest Hkeep; cbv zeta.
  - simpl. rewrite !app_nil_r in *.
    split; [exact Hdone|]. split; [exact Hrest|]. split; [exact Hnk|].
    split; [exact Hinc|exact Hkeep].
  - assert (Hr_notin : ~ In r (done ++ todo)) by (apply NoDup_remove_2 in Hnd; exact Hnd).
    assert (Hr_done : ~ In r done) by (intros H; apply Hr_notin, in_or_app; left; exact H).
    set (h' := heap_set h r (Car_update (h r) dt luces)).
    assert (Hh'r : h' r = Car_update (h0 r) dt luces).
    { unfold h'. rewrite heap_set_same, (Hrest r Hr_done). reflexivity. }
    assert (Hh'o : forall e, e <> r -> h' e = h e).
    { intros e He. unfold h'. apply heap_set_other. exact He. }
    assert (Hnd' : NoDup ((done ++ [r]) ++ todo)) by (rewrite <- app_assoc; exact Hnd).
    assert (Hdone' : forall e, In e (done ++ [r]) -> h' e = Car_update (h0 e) dt luces).
    { intros e He. apply in_app_or in He. destruct He as [He | [<- | []]].
      - rewrite Hh'o; [apply Hdone; exact He|]. intros ->. contradiction.
      - exact Hh'r. }
    assert (Hrest' : forall e, ~ In e (done ++ [r]) -> h' e = h0 e).
    { intros e He.
      assert (He1 : ~ In e done) by (intros H; apply He, in_or_app; left; exact H).
      assert (He2 : e <> r) by (intros ->; apply He, in_or_app; right; left; reflexivity).
      rewrite (Hh'o e He2). apply Hrest. exact He1. }
    assert (Hgoal : forall kept',
               NoDup (kept' ++ todo) -> incl kept' (done ++ [r]) ->
               (forall x, In x (done ++ [r]) ->
                          safe (Car_update (h0 x) dt luces) -> In x kept') ->
               let res := fold_left (car_step dt luces) todo (h', kept' ++ todo) in
               (forall e, In e (done ++ r :: todo) ->
                          fst res e = Car_update (h0 e) dt luces) /\
               (forall e, ~ In e (done ++ r :: todo) -> fst res e = h0 e) /\
               NoDup (snd res) /\
               incl (snd res) (done ++ r :: todo) /\
               (forall x, In x (done ++ r :: todo) ->
                          safe (Car_update (h0 x) dt luces) -> In x (snd res))).
    { intros kept' K1 K2 K3.
      pose proof (IH (done ++ [r]) kept' h' Hnd' K1 K2 Hdone' Hrest' K3) as H.
      cbv zeta in H. rewrite <- app_assoc in H. exact H. }
    cbn [fold_left].
    destruct (is_off_screen (h' r)) eqn:Hoff.
    + (* the car is off screen: [self.cars.remove(car)] *)
      set (p := fun e : Ref => Nat.eqb e r || Car_eqb (h' e) (h' r)).
      assert (Hp : existsb p (kept ++ [r]) = true).
      { apply existsb_exists. exists r. split.
        - apply in_or_app. right. left. reflexivity.
        - unfold p. rewrite Nat.eqb_refl. reflexivity. }
      assert (Hrem : list_remove h' (kept ++ r :: todo) r
                     = remove_first p (kept ++ [r]) ++ todo).
      { unfold list_remove. fold p.
        change (kept ++ r :: todo) with (kept ++ [r] ++ todo).
        rewrite app_assoc. apply remove_first_app. exact Hp. }
      assert (Hstep : car_step dt luces (h, kept ++ r :: todo) r
                      = (h', remove_first p (kept ++ [r]) ++ todo)).
      { unfold car_step. fold h'. rewrite Hoff. f_equal. exact Hrem. }
      rewrite Hstep. apply Hgoal.
      * rewrite <- Hrem. unfold list_remove. apply remove_first_NoDup. exact Hnk.
      * intros x Hx. apply (remove_first_incl p) in Hx.
        apply in_app_or in Hx. apply in_or_app.
        destruct Hx as [Hx | Hx]; [left; apply Hinc; exact Hx|right; exact Hx].
      * intros x Hx Hsafe. apply in_app_or in Hx. destruct Hx as [Hx | [<- | []]].
        -- apply remove_first_keeps.
           ++ apply in_or_app. left. apply Hkeep; assumption.
           ++ assert (Hne : x <> r) by (intros ->; contradiction).
              unfold p. apply orb_false_iff. split; [apply Nat.eqb_neq; exact Hne|].
              rewrite (Hh'o x Hne), (Hdone x Hx), Hh'r.
              apply Hsafe. rewrite <- Hh'r. exact Hoff.
        -- apply safe_on_screen in Hsafe. rewrite <- Hh'r in Hsafe. congruence.
    + (* the car stays *)
      assert (Hstep : car_step dt luces (h, kept ++ r :: todo) r
                      = (h', (kept ++ [r]) ++ todo)).
      { unfold car_step. fold h'. rewrite Hoff, <- app_assoc. reflexivity. }
      rewrite Hstep. apply Hgoal.
      * rewrite <- app_assoc. exact Hnk.
      * intros x Hx. apply in_app_or in Hx. apply in_or_app.
        destruct Hx as [Hx | Hx]; [left; apply Hinc; exact Hx|right; exact Hx].
      * intros x Hx Hsafe. apply in_app_or in Hx. apply in_or_app.
        destruct Hx as [Hx | Hx]; [left; apply Hkeep; assumption|right; exact Hx].
Qed.

(** The pass as a whole, from a list without duplicates. *)
Lemma update_cars_spec (dt : Q) (luces : list TrafficLight) (h : Heap) (cs : list Ref) :
  NoDup cs ->
  let res := update_cars dt luces h cs in
  (forall r, In r cs -> fst res r = Car_update (h r) dt luces) /\
  (forall r, ~ In r cs -> fst res r = h r) /\
  NoDup (snd res) /\
  incl (snd res) cs /\
  (forall x, In x cs -> safe (Car_update (h x) dt luces) -> In x (snd res)).
Proof.
  intros Hnd.
  apply (update_cars_pass dt luces h cs [] [] h); simpl; auto;
    try (intros x []); try (intros x Hx; destruct Hx).
Qed.

Lemma ForallOrdPairs_mid {A : Type} (R : A -> A -> Prop) (l1 l2 : list A) (a : A) :
  ForallOrdPairs R (l1 ++ a :: l2) -> forall e, In e l1 -> R e a.
Proof.
  induction l1 as [|x l1 IH]; intros H e He; [destruct He|].
  simpl in H. inversion H as [|? ? Hx Hl]; subst.
  destruct He as [<- | He].
  - rewrite Forall_forall in Hx. apply Hx. apply in_or_app. right. left. reflexivity.
  - apply IH; assumption.
Qed.

(** When no car that stays on screen compares equal to a later car that
    goes off screen, the pass removes exactly the cars that are off screen
    after their update. *)
Lemma update_cars_exact_from (dt : Q) (luces : list TrafficLight) (h0 : Heap) :
  forall (todo done : list Ref) (h : Heap),
    NoDup (done ++ todo) ->
    ForallOrdPairs (fun e r => separated (Car_update (h0 e) dt luces)
                                         (Car_update (h0 r) dt luces))
                   (done ++ todo) ->
    (forall r, In r done -> h r = Car_update (h0 r) dt luces) ->
    (forall r, ~ In r done -> h r = h0 r) ->
    let res := fold_left (car_step dt luces) todo (h, filter (on_screen h) done ++ todo) in
    snd res = filter (on_screen (fst res)) (done ++ todo).
Proof.
  induction todo as [|r todo IH]; intros done h Hnd Hsep Hdone Hrest; cbv zeta.
  - simpl. rewrite !app_nil_r. reflexivity.
  - assert (Hr_notin : ~ In r (done ++ todo)) by (apply NoDup_remove_2 in Hnd; exact Hnd).
    assert (Hr_done : ~ In r done) by (intros H; apply Hr_notin, in_or_app; left; exact H).
    set (h' := heap_set h r (Car_update (h r) dt luces)).
    assert (Hh'r : h' r = Car_update (h0 r) dt luces).
    { unfold h'. rewrite heap_set_same, (Hrest r Hr_done). reflexivity. }
    assert (Hh'o : forall e, e <> r -> h' e = h e).
    { intros e He. unfold h'. apply heap_set_other. exact He. }
    assert (Hfilt : filter (on_screen h') done = filter (on_screen h) done).
    { apply filter_ext_in. intros e He. unfold on_screen.
      rewrite Hh'o; [reflexivity|]. intros ->. contradiction. }
    assert (Hstep : car_step dt luces (h, filter (on_screen h) done ++ r :: todo) r
                    = (h', filter (on_screen h') (done ++ [r]) ++ todo)).
    { unfold car_step. fold h'.
      rewrite filter_app, Hfilt. simpl filter.
      change (on_screen h' r) with (negb (is_off_screen (h' r))).
      destruct (is_off_screen (h' r)) eqn:Hoff; simpl.
      - f_equal. rewrite app_nil_r. unfold list_remove.
        apply remove_first_skip.
        + intros e He. apply filter_In in He. destruct He as [He Hon].
          assert (Hne : e <> r) by (intros ->; contradiction).
          apply orb_false_iff. split; [apply Nat.eqb_neq; exact Hne|].
          rewrite (Hh'o e Hne), (Hdone e He), Hh'r.
          apply (ForallOrdPairs_mid _ _ _ _ Hsep e He).
          * unfold on_screen in Hon. rewrite (Hdone e He) in Hon.
            apply negb_true_iff in Hon. exact Hon.
          * rewrite <- Hh'r. exact Hoff.
        + rewrite Nat.eqb_refl. reflexivity.
      - rewrite <- app_assoc. reflexivity. }
    cbn [fold_left]. rewrite Hstep.
    assert (Hnd' : NoDup ((done ++ [r]) ++ todo)) by (rewrite <- app_assoc; exact Hnd).
    assert (Hsep' : ForallOrdPairs
                      (fun e r0 => separated (Car_update (h0 e) dt luces)
                                             (Car_update (h0 r0) dt luces))
                      ((done ++ [r]) ++ todo)) by (rewrite <- app_assoc; exact Hsep).
    specialize (IH (done ++ [r]) h' Hnd' Hsep').
    cbv zeta in IH. rewrite <- app_assoc in IH. simpl app in IH.
    apply IH.
    + intros e He. apply in_app_or in He. destruct He as [He | [<- | []]].
      * rewrite Hh'o; [apply Hdone; exact He|]. intros ->. contradiction.
      * exact Hh'r.
    + intros e He.
      assert (He1 : ~ In e done) by (intros H; apply He, in_or_app; left; exact H).
      assert (He2 : e <> r) by (intros ->; apply He, in_or_app; right; left; reflexivity).
      rewrite (Hh'o e He2). apply Hrest. exact He1.
Qed.

Lemma update_cars_exact (dt : Q) (luces : list TrafficLight) (h : Heap) (cs : list Ref) :
  NoDup cs ->
  ForallOrdPairs (fun e r => separated (Car_update (h e) dt luces)
                                       (Car_update (h r) dt luces)) cs ->
  snd (update_cars dt luces h cs)
  = filter (on_screen (fst (update_cars dt luces h cs))) cs.
Proof.
  intros Hnd Hsep.
  apply (update_cars_exact_from dt luces h cs [] h); simpl; auto.
  intros r [].
Qed.

(** *** The whole step *)

Lemma Spawner_update_wf (sp : Spawner) (ms : Z) (st : CarStore) (cs : list Ref) :
  cars_wf st cs ->
  forall o, In o (Spawner_update sp ms st cs) -> cars_wf (snd (fst o)) (snd o).
Proof.
  intros [Hnd Hlt] o Ho. unfold Spawner_update, alloc in Ho.
  destruct (ms >=? next_spawn_ms sp).
  - rewrite (bind_ret_map
               (fun u => (set_next_spawn sp (ms + u),
                          {| heap := heap_set (heap st) (next_ref st) (spawned_Car sp);
                             next_ref := S (next_ref st) |},
                          cs ++ [next_ref st]))) in Ho.
    apply in_map_iff in Ho. destruct Ho as (u & <- & _). simpl. split.
    + apply NoDup_app; repeat split.
      * exact Hnd.
      * constructor; [intros []|constructor].
      * intros r Hr [<- | []]. specialize (Hlt _ Hr). lia.
    + intros r Hr. apply in_app_or in Hr. destruct Hr as [Hr | [<- | []]].
      * specialize (Hlt _ Hr). simpl. lia.
      * simpl. lia.
  - destruct Ho as [<- | []]. simpl. split; assumption.
Qed.

Lemma update_spawners_wf (sps : list Spawner) (ms : Z) :
  forall (st : CarStore) (cs : list Ref),
    cars_wf st cs ->
    forall o, In o (update_spawners sps ms st cs) -> cars_wf (snd (fst o)) (snd o).
Proof.
  induction sps as [|sp rest IH]; intros st cs Hwf o Ho; simpl in Ho.
  - destruct Ho as [<- | []]. exact Hwf.
  - unfold bind in Ho. apply in_flat_map in Ho.
    destruct Ho as ([[sp' st'] cs'] & H1 & H2).
    apply in_flat_map in H2. destruct H2 as ([[rest' st''] cs''] & H2 & H3).
    destruct H3 as [<- | []]. simpl.
    apply (IH st' cs' (Spawner_update_wf sp ms st cs Hwf _ H1) _ H2).
Qed.

Lemma Simulation_update_cars (s s' : Simulation) (dt : Q) (ms : Z) :
  In s' (Simulation_update s dt ms) ->
  exists sps st cs,
    In (sps, st, cs) (update_spawners (spawners s) ms (store s) (cars s)) /\
    let luces := [traffic_light_ns s'; traffic_light_ew s'] in
    heap (store s') = fst (update_cars dt luces (heap st) cs) /\
    cars s' = snd (update_cars dt luces (heap st) cs) /\
    next_ref (store s') = next_ref st /\
    spawners s' = sps.
Proof.
  unfold Simulation_update.
  destruct (update_lights (traffic_light_ns s) (traffic_light_ew s) ms) as [ns ew].
  unfold bind. rewrite in_flat_map.
  intros [[[sps st] cs] [Hsp Hin]].
  exists sps, st, cs. split; [exact Hsp|].
  destruct (update_cars dt [ns; ew] (heap st) cs) as [h cs'] eqn:E.
  destruct Hin as [<- | []]. simpl. rewrite E. repeat split.
Qed.

Lemma Simulation_update_wf (s s' : Simulation) (dt : Q) (ms : Z) :
  cars_wf (store s) (cars s) ->
  In s' (Simulation_update s dt ms) ->
  cars_wf (store s') (cars s').
Proof.
  intros Hwf Hin.
  destruct (Simulation_update_cars s s' dt ms Hin) as (sps & st & cs & Hsp & Hh & Hc & Hn & _).
  destruct (update_spawners_wf _ ms _ _ Hwf _ Hsp) as [Hnd Hlt]. simpl in Hnd, Hlt.
  destruct (update_cars_spec dt [traffic_light_ns s'; traffic_light_ew s'] (heap st) cs Hnd)
    as (_ & _ & Hnd' & Hinc & _).
  rewrite <- Hc in Hnd', Hinc.
  split; [exact Hnd'|].
  intros r Hr. rewrite Hn. apply Hlt, Hinc, Hr.
Qed.

Lemma reachable_wf (s : Simulation) : reachable s -> cars_wf (store s) (cars s).
Proof.
  induction 1 as [|s s' dt ms _ IH Hin].
  - split; [constructor|intros r []].
  - apply (Simulation_update_wf s s' dt ms IH Hin).
Qed.

(** ** Every step has an outcome *)

Lemma bind_nonempty {A B : Type} (m : Dist A) (f : A -> Dist B) :
  m <> [] -> (forall a, In a m -> f a <> []) -> bind m f <> [].
Proof.
  destruct m as [|a m]; [congruence|]. intros _ Hf. unfold bind. simpl.
  specialize (Hf a (or_introl eq_refl)).
  destruct (f a); [congruence|discriminate].
Qed.

Lemma randint_nonempty (a b : Z) : a <= b -> randint a b <> [].
Proof.
  intros H E. assert (Hin : In a (randint a b)) by (apply randint_In; lia).
  rewrite E in Hin. exact Hin.
Qed.

Lemma Spawner_update_total (sp : Spawner) (ms : Z) (st : CarStore) (cs : list Ref) :
  fst (interval_range sp) <= snd (interval_range sp) ->
  Spawner_update sp ms st cs <> [].
Proof.
  intros H. unfold Spawner_update, alloc.
  destruct (ms >=? next_spawn_ms sp); [|discriminate].
  apply bind_nonempty; [apply randint_nonempty; exact H|discriminate].
Qed.

Lemma Spawner_update_range (sp : Spawner) (ms : Z) (st : CarStore) (cs : list Ref) :
  forall o, In o (Spawner_update sp ms st cs) ->
            interval_range (fst (fst o)) = interval_range sp.
Proof.
  intros o Ho. unfold Spawner_update, alloc in Ho.
  destruct (ms >=? next_spawn_ms sp).
  - unfold bind in Ho. apply in_flat_map in Ho.
    destruct Ho as (u & _ & [<- | []]). reflexivity.
  - destruct Ho as [<- | []]. reflexivity.
Qed.

Lemma update_spawners_total (sps : list Spawner) (ms : Z) :
  Forall (fun sp => fst (interval_range sp) <= snd (interval_range sp)) sps ->
  forall (st : CarStore) (cs : list Ref), update_spawners sps ms st cs <> [].
Proof.
  induction 1 as [|sp rest Hsp _ IH]; intros st cs; simpl; [discriminate|].
  apply bind_nonempty; [apply Spawner_update_total; exact Hsp|].
  intros [[sp' st'] cs'] _.
  apply bind_nonempty; [apply IH|].
  intros [[rest' st''] cs''] _. discriminate.
Qed.

Lemma update_spawners_range (sps : list Spawner) (ms : Z) :
  forall (st : CarStore) (cs : list Ref) o,
    In o (update_spawners sps ms st cs) ->
    map interval_range (fst (fst o)) = map interval_range sps.
Proof.
  induction sps as [|sp rest IH]; intros st cs o Ho; simpl in Ho.
  - destruct Ho as [<- | []]. reflexivity.
  - unfold bind in Ho. apply in_flat_map in Ho.
    destruct Ho as ([[sp' st'] cs'] & H1 & H2).
    apply in_flat_map in H2. destruct H2 as ([[rest' st''] cs''] & H2 & [<- | []]).
    simpl. f_equal.
    + apply (Spawner_update_range sp ms st cs _ H1).
    + apply (IH st' cs' _ H2).
Qed.

Lemma reachable_ranges (s : Simulation) :
  reachable s ->
  map interval_range (spawners s) = map interval_range (spawners Simulation_init).
Proof.
  induction 1 as [|s s' dt ms _ IH Hin]; [reflexivity|].
  destruct (Simulation_update_cars s s' dt ms Hin) as (sps & st & cs & Hsp & _ & _ & _ & ->).
  rewrite <- IH. apply (update_spawners_range _ ms _ _ _ Hsp).
Qed.

(** From every state the program can reach, a call of [Simulation.update]
    has at least one outcome. *)
Lemma Simulation_update_total (s : Simulation) (dt : Q) (ms : Z) :
  reachable s -> exists s', In s' (Simulation_update s dt ms).
Proof.
  intros Hr.
  assert (Hne : Simulation_update s dt ms <> []).
  { unfold Simulation_update.
    destruct (update_lights (traffic_light_ns s) (traffic_light_ew s) ms) as [ns ew].
    apply bind_nonempty.
    - apply update_spawners_total.
      apply reachable_ranges in Hr.
      apply Forall_forall. intros sp Hsp.
      assert (Hin : In (interval_range sp) (map interval_range (spawners s)))
        by (apply in_map; exact Hsp).
      rewrite Hr in Hin. simpl in Hin.
      destruct Hin as [<- | [<- | [<- | [<- | []]]]]; simpl; lia.
    - intros [[sps st] cs] _.
      destruct (update_cars dt [ns; ew] (heap st) cs). discriminate. }
  destruct (Simulation_update s dt ms) as [|s' l]; [congruence|].
  exists s'. left. reflexivity.
Qed.

(** * Further properties *)

(** ** The lights over a run *)

Lemma TrafficLight_update_orientation (l : TrafficLight) (ms : Z) :
  orientation (TrafficLight_update l ms) = orientation l.
Proof.
  rewrite TrafficLight_update_eq.
  destruct (ms - last_change_ms l >=? timeout_of (state l)); reflexivity.
Qed.

Lemma update_lights_orientation (ns ew : TrafficLight) (ms : Z) :
  orientation (fst (update_lights ns ew ms)) = orientation ns /\
  orientation (snd (update_lights ns ew ms)) = orientation ew.
Proof.
  unfold update_lights.
  destruct (LightState_eqb (state (TrafficLight_update ns ms)) ROJO); simpl;
    rewrite ?TrafficLight_update_orientation; split; reflexivity.
Qed.

Lemma reachable_orientation (s : Simulation) :
  reachable s ->
  orientation (traffic_light_ns s) = NORTE /\ orientation (traffic_light_ew s) = ESTE.
Proof.
  induction 1 as [|s s' dt ms _ [IHn IHe] Hin].
  - split; reflexivity.
  - apply Simulation_update_lights in Hin.
    destruct (update_lights_orientation (traffic_light_ns s) (traffic_light_ew s) ms)
      as [Hn He].
    rewrite <- Hin in Hn, He. simpl in Hn, He.
    rewrite Hn, He. split; assumption.
Qed.

Lemma reachable_exclusive (s : Simulation) :
  reachable s -> both_non_red (traffic_light_ns s) (traffic_light_ew s) = false.
Proof.
  intros Hr. destruct Hr as [|s s' dt ms _ Hin]; [reflexivity|].
  apply Simulation_update_lights in Hin.
  pose proof (update_lights_exclusive (traffic_light_ns s) (traffic_light_ew s) ms) as H.
  rewrite <- Hin in H. exact H.
Qed.

(** X1.  In every state the program can reach, the north-south light is
    green only for [NORTE] and [SUR], the east-west light only for [ESTE]
    and [OESTE], and the two are never green for anybody at the same time:
    two crossing directions never both have a green light. *)
Theorem right_of_way_exclusive (s : Simulation) (d1 d2 : Direction) :
  reachable s ->
  (is_green_for (traffic_light_ns s) d1 = true -> in_NORTE_SUR d1 = true) /\
  (is_green_for (traffic_light_ew s) d2 = true -> in_ESTE_OESTE d2 = true) /\
  (is_green_for (traffic_light_ns s) d1 = true ->
   is_green_for (traffic_light_ew s) d2 = false).
Proof.
  intros Hr.
  destruct (reachable_orientation s Hr) as [Hn He].
  pose proof (reachable_exclusive s Hr) as Hx.
  unfold is_green_for, both_non_red in *. rewrite Hn, He.
  destruct d1, d2, (state (traffic_light_ns s)), (state (traffic_light_ew s));
    simpl in *; repeat split; intros; congruence.
Qed.

Lemma right_of_way_exclusive_witness :
  is_green_for (traffic_light_ns Simulation_init) NORTE = true /\
  is_green_for (traffic_light_ew Simulation_init) ESTE = false.
Proof.
  split; [reflexivity|].
  apply (right_of_way_exclusive Simulation_init NORTE ESTE reachable_init).
  reflexivity.
Defined.

Lemma lights_trace_length (l : TrafficLight * TrafficLight) (times : list Z) :
  List.length (lights_trace l times) = List.length times.
Proof.
  revert l. induction times as [|t rest IH]; intros l; simpl; [reflexivity|].
  rewrite IH. reflexivity.
Qed.

(** A property of (call time, lights) that holds at the start and is kept
    by every call holds along the whole trace. *)
Lemma lights_trace_invariant
    (step_ok : Z -> Z -> bool)
    (Inv : Z -> TrafficLight * TrafficLight -> Prop)
    (ok : Z -> list Z -> bool)
    (Hok : forall prev t rest, ok prev (t :: rest) = true ->
                               step_ok prev t = true /\ ok t rest = true)
    (Hstep : forall prev t l, Inv prev l -> step_ok prev t = true ->
                              Inv t (update_lights (fst l) (snd l) t)) :
  forall times prev l,
    Inv prev l -> ok prev times = true ->
    Forall (fun tl => Inv (fst tl) (snd tl)) (combine times (lights_trace l times)).
Proof.
  induction times as [|t rest IH]; intros prev l HI Hk; simpl; [constructor|].
  destruct (Hok prev t rest Hk) as [Hs Hr].
  constructor.
  - simpl. apply (Hstep prev t l HI Hs).
  - apply (IH t _ (Hstep prev t l HI Hs) Hr).
Qed.

(** X2.  When [Simulation.update] is called at times that never go back,
    starting at or after 0, the clock of neither light is ever ahead of the
    current time: the time spent in a phase is never negative. *)
Theorem clocks_not_ahead (times : list Z) :
  nondecreasing 0 times = true ->
  Forall (fun tl => last_change_ms (fst (snd tl)) <= fst tl /\
                    last_change_ms (snd (snd tl)) <= fst tl)
         (combine times (lights_trace lights_init times)).
Proof.
  intros Hnd.
  apply (lights_trace_invariant Z.leb
           (fun t l => last_change_ms (fst l) <= t /\ last_change_ms (snd l) <= t)
           nondecreasing) with (prev := 0).
  - intros prev t rest H. simpl in H. apply andb_true_iff in H. exact H.
  - intros prev t [ns ew] [Hn He] Hle. apply Z.leb_le in Hle. simpl in *.
    unfold update_lights.
    assert (Hu : forall l, last_change_ms l <= prev ->
                           last_change_ms (TrafficLight_update l t) <= t).
    { intros l Hl. rewrite TrafficLight_update_eq.
      destruct (t - last_change_ms l >=? timeout_of (state l)); simpl; lia. }
    destruct (LightState_eqb (state (TrafficLight_update ns t)) ROJO); simpl; split;
      auto; lia.
  - simpl. lia.
  - exact Hnd.
Qed.

Lemma clocks_not_ahead_witness :
  Forall (fun tl => last_change_ms (fst (snd tl)) <= fst tl /\
                    last_change_ms (snd (snd tl)) <= fst tl)
         (combine every_second (lights_trace lights_init every_second)).
Proof.
  apply (clocks_not_ahead every_second). vm_compute. reflexivity.
Defined.

(** The state of the two lights after a call at time [t], when calls are
    at most [delta] apart: a leader that is not red holds the follower red
    with its clock at [t]; under a red leader the follower is red with a
    clock at most [delta] older than the leader's, or green since at most
    [delta] before the end of the leader's red. *)
Lemma follower_invariant_step (delta prev t : Z) (ns ew : TrafficLight) :
  delta <= TIEMPO_VERDE ->
  prev <= t -> t - prev <= delta ->
  ((state ns <> ROJO -> state ew = ROJO /\ last_change_ms ew = prev) /\
   (state ns = ROJO ->
    prev - last_change_ms ns < 8000 /\ last_change_ms ns <= prev /\
    ((state ew = ROJO /\ last_change_ms ns - delta <= last_change_ms ew <= prev) \/
     (state ew = VERDE /\ last_change_ms ns - delta + 8000 <= last_change_ms ew <= prev)))) ->
  let ns' := fst (update_lights ns ew t) in
  let ew' := snd (update_lights ns ew t) in
  (state ns' <> ROJO -> state ew' = ROJO /\ last_change_ms ew' = t) /\
  (state ns' = ROJO ->
   t - last_change_ms ns' < 8000 /\ last_change_ms ns' <= t /\
   ((state ew' = ROJO /\ last_change_ms ns' - delta <= last_change_ms ew' <= t) \/
    (state ew' = VERDE /\ last_change_ms ns' - delta + 8000 <= last_change_ms ew' <= t))).
Proof.
  unfold TIEMPO_VERDE. intros Hd Hle Hgap [Hnr Hr]. cbv zeta.
  assert (Hto : forall s, timeout_of s =
                          match s with VERDE => 6000 | AMARILLO => 2000 | ROJO => 8000 end)
    by (intros []; reflexivity).
  assert (Hew : state (TrafficLight_update ns t) = ROJO ->
                last_change_ms (TrafficLight_update ns t) - delta <= prev ->
                (state ns = ROJO -> TrafficLight_update ns t = ns) ->
                let ew' := TrafficLight_update ew t in
                (state ew' = ROJO /\
                 last_change_ms (TrafficLight_update ns t) - delta <= last_change_ms ew' <= t) \/
                (state ew' = VERDE /\
                 last_change_ms (TrafficLight_update ns t) - delta + 8000
                 <= last_change_ms ew' <= t)).
  { intros Hred Hclock Hsame. cbv zeta.
    destruct (LightState_eqb (state ns) ROJO) eqn:Ens.
    - (* the leader was red already *)
      apply LightState_eqb_eq in Ens.
      assert (Hlate : t - last_change_ms ns < 8000).
      { destruct (Z_lt_le_dec (t - last_change_ms ns) (timeout_of (state ns))) as [Hn | Hn].
        - rewrite Ens, Hto in Hn. exact Hn.
        - pose proof (Hsame Ens) as Hq. rewrite (TrafficLight_update_due ns t Hn) in Hq.
          apply (f_equal state) in Hq. simpl in Hq. rewrite Ens in Hq. discriminate. }
      rewrite (Hsame Ens).
      destruct (Hr Ens) as (H1 & H2 & [[He Hc] | [He Hc]]).
      + destruct (Z_lt_le_dec (t - last_change_ms ew) (timeout_of (state ew))) as [Hl | Hl].
        * rewrite (TrafficLight_update_early ew t Hl). left. split; [exact He|lia].
        * rewrite (TrafficLight_update_due ew t Hl). rewrite He in *. rewrite Hto in Hl.
          simpl. right. split; [reflexivity|lia].
      + destruct (Z_lt_le_dec (t - last_change_ms ew) (timeout_of (state ew))) as [Hl | Hl].
        * rewrite (TrafficLight_update_early ew t Hl). right. split; [exact He|lia].
        * rewrite He, Hto in Hl. lia.
    - (* the leader was not red: the follower was held red at [prev] *)
      assert (Hne : state ns <> ROJO).
      { intros H. apply LightState_eqb_eq in H. congruence. }
      destruct (Hnr Hne) as [He Hc].
      assert (Hl : t - last_change_ms ew < timeout_of (state ew))
        by (rewrite He, Hto; lia).
      rewrite (TrafficLight_update_early ew t Hl). left. split; [exact He|lia]. }
  assert (Hns : state (TrafficLight_update ns t) = ROJO ->
                t - last_change_ms (TrafficLight_update ns t) < 8000 /\
                last_change_ms (TrafficLight_update ns t) <= t /\
                last_change_ms (TrafficLight_update ns t) - delta <= prev /\
                (state ns = ROJO -> TrafficLight_update ns t = ns)).
  { intros Hred.
    destruct (Z_lt_le_dec (t - last_change_ms ns) (timeout_of (state ns))) as [Hn | Hn].
    - rewrite (TrafficLight_update_early ns t Hn) in *.
      destruct (Hr Hred) as (H1 & H2 & _). rewrite Hred, Hto in Hn.
      repeat split; try lia; auto.
    - rewrite (TrafficLight_update_due ns t Hn) in *. simpl in *.
      repeat split; try lia.
      intros H. rewrite H in Hred. simpl in Hred. discriminate. }
  unfold update_lights.
  destruct (LightState_eqb (state (TrafficLight_update ns t)) ROJO) eqn:E; simpl.
  - apply LightState_eqb_eq in E. split; [congruence|]. intros _.
    destruct (Hns E) as (H1 & H2 & H3 & H4).
    split; [exact H1|]. split; [exact H2|].
    apply (Hew E H3 H4).
  - split; [intros _; split; reflexivity|].
    intros H. apply LightState_eqb_eq in H. congruence.
Qed.

(** X3.  When [Simulation.update] is called from the initial state at
    times that never go back and are at most [delta <= 6000] ms apart, the
    east-west light is never [AMARILLO], and it is [VERDE] only while the
    north-south light is [ROJO] and has at most [delta] ms, and more than
    0 ms, of its 8000 ms of red left. *)
Theorem follower_never_yellow (delta : Z) (times : list Z) :
  delta <= 6000 ->
  gaps_within delta 0 times = true ->
  Forall (fun tl =>
            let t := fst tl in
            let ns := fst (snd tl) in
            let ew := snd (snd tl) in
            state ew <> AMARILLO /\
            (state ew = VERDE ->
             state ns = ROJO /\
             last_change_ms ns + 8000 - delta <= t /\ t < last_change_ms ns + 8000))
         (combine times (lights_trace lights_init times)).
Proof.
  intros Hd Hg.
  pose (Inv := fun (t : Z) (l : TrafficLight * TrafficLight) =>
    (state (fst l) <> ROJO -> state (snd l) = ROJO /\ last_change_ms (snd l) = t) /\
    (state (fst l) = ROJO ->
     t - last_change_ms (fst l) < 8000 /\ last_change_ms (fst l) <= t /\
     ((state (snd l) = ROJO /\
       last_change_ms (fst l) - delta <= last_change_ms (snd l) <= t) \/
      (state (snd l) = VERDE /\
       last_change_ms (fst l) - delta + 8000 <= last_change_ms (snd l) <= t)))).
  assert (HF : Forall (fun tl => Inv (fst tl) (snd tl))
                      (combine times (lights_trace lights_init times))).
  { apply (lights_trace_invariant
             (fun prev t => (prev <=? t) && (t - prev <=? delta)) Inv (gaps_within delta))
      with (prev := 0).
    - intros prev t rest H. simpl in H. apply andb_true_iff in H. exact H.
    - intros prev t [ns ew] HI Hs. apply andb_true_iff in Hs. destruct Hs as [H1 H2].
      apply Z.leb_le in H1. apply Z.leb_le in H2.
      apply (follower_invariant_step delta prev t ns ew Hd H1 H2 HI).
    - unfold Inv. simpl. split; [intros _; split; reflexivity|discriminate].
    - exact Hg. }
  eapply Forall_impl; [|exact HF].
  intros [t [ns ew]] [Hnr Hr]. simpl in *.
  destruct (state ns) eqn:Hs.
  - destruct Hnr as [He _]; [discriminate|]. rewrite He. split; [discriminate|discriminate].
  - destruct Hnr as [He _]; [discriminate|]. rewrite He. split; [discriminate|discriminate].
  - destruct (Hr eq_refl) as (H1 & H2 & [[He Hc] | [He Hc]]); rewrite He.
    + split; discriminate.
    + split; [discriminate|]. intros _. split; [reflexivity|]. lia.
Qed.

Lemma follower_never_yellow_witness :
  Forall (fun tl =>
            let t := fst tl in
            let ns := fst (snd tl) in
            let ew := snd (snd tl) in
            state ew <> AMARILLO /\
            (state ew = VERDE ->
             state ns = ROJO /\
             last_change_ms ns + 8000 - 16 <= t /\ t < last_change_ms ns + 8000))
         (combine every_frame (lights_trace lights_init every_frame)).
Proof.
  apply (follower_never_yellow 16 every_frame).
  - lia.
  - vm_compute. reflexivity.
Defined.

Lemma run_lights_leader (times : list Z) :
  forall ns ew,
    fst (run_lights (ns, ew) times) = fold_left TrafficLight_update times ns.
Proof.
  unfold run_lights.
  induction times as [|t rest IH]; intros ns ew; simpl; [reflexivity|].
  destruct (update_lights ns ew t) as [ns' ew'] eqn:E.
  rewrite IH. f_equal.
  change ns' with (fst (ns', ew')). rewrite <- E. apply update_lights_fst.
Qed.

(** X4.  The north-south light runs freely: after any sequence of calls of
    [Simulation.update] its state is the one its own [update] produces,
    whatever the east-west light was at the start. *)
Theorem leader_runs_freely (ns ew ew' : TrafficLight) (times : list Z) :
  fst (run_lights (ns, ew) times) = fold_left TrafficLight_update times ns /\
  fst (run_lights (ns, ew) times) = fst (run_lights (ns, ew') times).
Proof.
  split; [apply run_lights_leader|].
  rewrite !run_lights_leader. reflexivity.
Qed.

(** ** Spawners and the store *)

(** What one [Spawner.update] does to the store and the list. *)
Lemma Spawner_update_frame (sp : Spawner) (ms : Z) (st : CarStore) (cs : list Ref) :
  forall o, In o (Spawner_update sp ms st cs) ->
    exists news,
      snd o = cs ++ news /\
      (List.length news <= 1)%nat /\
      next_ref (snd (fst o)) = (next_ref st + List.length news)%nat /\
      (forall r, (r < next_ref st)%nat -> heap (snd (fst o)) r = heap st r) /\
      (forall r, In r news -> r = next_ref st /\ heap (snd (fst o)) r = spawned_Car sp) /\
      sp_direction (fst (fst o)) = sp_direction sp /\
      spawn_pos (fst (fst o)) = spawn_pos sp.
Proof.
  intros o Ho. unfold Spawner_update, alloc in Ho.
  destruct (ms >=? next_spawn_ms sp).
  - unfold bind in Ho. apply in_flat_map in Ho.
    destruct Ho as (u & _ & [<- | []]). simpl.
    exists [next_ref st].
    split; [reflexivity|]. split; [simpl; lia|]. split; [simpl; lia|].
    split; [intros r Hr; apply heap_set_other; lia|].
    split; [|split; reflexivity].
    intros r [<- | []]. split; [reflexivity|apply heap_set_same].
  - destruct Ho as [<- | []]. simpl.
    exists []. rewrite app_nil_r.
    split; [reflexivity|]. split; [simpl; lia|]. split; [simpl; lia|].
    split; [reflexivity|]. split; [|split; reflexivity].
    intros r [].
Qed.

Lemma update_spawners_frame (sps : list Spawner) (ms : Z) :
  forall (st : CarStore) (cs : list Ref) o,
    In o (update_spawners sps ms st cs) ->
    exists news,
      snd o = cs ++ news /\
      (List.length news <= List.length sps)%nat /\
      next_ref (snd (fst o)) = (next_ref st + List.length news)%nat /\
      (forall r, (r < next_ref st)%nat -> heap (snd (fst o)) r = heap st r) /\
      (forall r, In r news ->
                 (next_ref st <= r)%nat /\
                 exists sp, In sp sps /\ heap (snd (fst o)) r = spawned_Car sp) /\
      map sp_direction (fst (fst o)) = map sp_direction sps /\
      map spawn_pos (fst (fst o)) = map spawn_pos sps.
Proof.
  induction sps as [|sp rest IH]; intros st cs o Ho; simpl in Ho.
  - destruct Ho as [<- | []]. exists []. simpl. rewrite app_nil_r.
    split; [reflexivity|]. split; [lia|]. split; [lia|].
    split; [reflexivity|]. split; [|split; reflexivity].
    intros r [].
  - unfold bind in Ho. apply in_flat_map in Ho.
    destruct Ho as ([[sp' st'] cs'] & H1 & H2).
    apply in_flat_map in H2. destruct H2 as ([[rest' st''] cs''] & H2 & [<- | []]).
    destruct (Spawner_update_frame sp ms st cs _ H1)
      as (n1 & Hc1 & Hl1 & Hn1 & Hh1 & Hnew1 & Hd1 & Hp1).
    destruct (IH st' cs' _ H2) as (n2 & Hc2 & Hl2 & Hn2 & Hh2 & Hnew2 & Hd2 & Hp2).
    simpl in *. subst cs'. subst cs''.
    exists (n1 ++ n2). rewrite length_app.
    split; [symmetry; apply app_assoc|]. split; [lia|]. split; [lia|]. split; [|split; [|split]].
    + intros r Hr. rewrite Hh2 by lia. apply Hh1. exact Hr.
    + intros r Hr. apply in_app_or in Hr. destruct Hr as [Hr | Hr].
      * destruct (Hnew1 r Hr) as [-> Hs]. split; [lia|].
        exists sp. split; [left; reflexivity|].
        rewrite Hh2; [exact Hs|].
        destruct n1 as [|x n1]; [destruct Hr|]. simpl in Hn1. lia.
      * destruct (Hnew2 r Hr) as (Hge & sp2 & Hin2 & Hs). split; [lia|].
        exists sp2. split; [right; exact Hin2|exact Hs].
    + f_equal; assumption.
    + f_equal; assumption.
Qed.



(** X6.  After [Spawner.update] at time [current_ms], with the default
    interval, the spawner's next spawn time lies in the future: if it has
    just spawned, between 1500 and 4000 ms after [current_ms].  A second
    call less than 1500 ms later therefore spawns nothing: two cars of one
    spawner are at least 1500 ms apart. *)
Theorem spawns_are_spaced (sp : Spawner) (ms ms2 : Z) (st st2 : CarStore) (cs cs2 : list Ref) :
  interval_range sp = (1500, 4000) ->
  forall o, In o (Spawner_update sp ms st cs) ->
    ms < next_spawn_ms (fst (fst o)) /\
    (next_spawn_ms sp <= ms ->
     ms + 1500 <= next_spawn_ms (fst (fst o)) <= ms + 4000 /\
     (ms2 < ms + 1500 ->
      Spawner_update (fst (fst o)) ms2 st2 cs2 = [(fst (fst o), st2, cs2)])).
Proof.
  intros Hr o Ho. unfold Spawner_update, alloc in Ho.
  destruct (Z.geb_spec ms (next_spawn_ms sp)) as [Hge | Hlt].
  - rewrite Hr in Ho. unfold bind in Ho. apply in_flat_map in Ho.
    destruct Ho as (u & Hu & [<- | []]). apply randint_In in Hu. simpl in Hu. simpl.
    split; [lia|]. intros _. split; [lia|].
    intros H2. unfold Spawner_update. simpl.
    destruct (Z.geb_spec ms2 (ms + u)); [lia|reflexivity].
  - destruct Ho as [<- | []]. simpl. split; [lia|]. intros H. lia.
Qed.

Lemma spawns_are_spaced_witness :
  let sp' := set_next_spawn (new_Spawner NORTE (470, 630)%Q) (16 + 1500) in
  Spawner_update sp' 1515 (store Simulation_init) [] = [(sp', store Simulation_init, [])].
Proof.
  cbv zeta.
  assert (Hin : In (set_next_spawn (new_Spawner NORTE (470, 630)%Q) (16 + 1500),
                    snd (alloc (store Simulation_init)
                               (spawned_Car (new_Spawner NORTE (470, 630)%Q))),
                    [0%nat])
                   (Spawner_update (new_Spawner NORTE (470, 630)%Q) 16
                                   (store Simulation_init) [])).
  { assert (E : (16 >=? next_spawn_ms (new_Spawner NORTE (470, 630)%Q)) = true)
      by reflexivity.
    unfold Spawner_update. rewrite E. unfold bind. apply in_flat_map.
    exists 1500. split; [apply randint_In; simpl; lia|left; reflexivity]. }
  destruct (spawns_are_spaced (new_Spawner NORTE (470, 630)%Q) 16 1515
              (store Simulation_init) (store Simulation_init) [] [] eq_refl _ Hin)
    as [_ H].
  destruct H as [_ H]; [simpl; lia|].
  apply H. lia.
Defined.

(** ** One step of the simulation, car by car *)

Lemma map_pair_ext {A B C D : Type} (f : A -> B) (g : A -> C) (h : B -> C -> D) :
  forall l l' : list A,
    map f l = map f l' -> map g l = map g l' ->
    map (fun x => h (f x) (g x)) l = map (fun x => h (f x) (g x)) l'.
Proof.
  induction l as [|a l IH]; intros [|a' l'] Hf Hg; simpl in *; try discriminate.
  - reflexivity.
  - injection Hf as Hf1 Hf2. injection Hg as Hg1 Hg2.
    rewrite Hf1, Hg1, (IH l' Hf2 Hg2). reflexivity.
Qed.

Lemma spawned_Car_map (sps sps' : list Spawner) :
  map sp_direction sps' = map sp_direction sps ->
  map spawn_pos sps' = map spawn_pos sps ->
  map spawned_Car sps' = map spawned_Car sps.
Proof.
  intros Hd Hp.
  apply (map_pair_ext sp_direction spawn_pos
           (fun d p => new_Car d {| vx := fst p; vy := snd p |}) sps' sps Hd Hp).
Qed.

Lemma ForallOrdPairs_impl_in {A : Type} (R R' : A -> A -> Prop) (l : list A) :
  (forall a b, In a l -> In b l -> R a b -> R' a b) ->
  ForallOrdPairs R l -> ForallOrdPairs R' l.
Proof.
  intros Himp H. induction H as [|a l Ha Hl IH]; [constructor|].
  constructor.
  - rewrite Forall_forall in *. intros b Hb.
    apply Himp; [left; reflexivity|right; exact Hb|apply Ha; exact Hb].
  - apply IH. intros x y Hx Hy. apply Himp; right; assumption.
Qed.

Lemma ForallOrdPairs_all {A : Type} (R : A -> A -> Prop) (l : list A) :
  (forall a b, In a l -> In b l -> R a b) -> ForallOrdPairs R l.
Proof.
  induction l as [|a l IH]; intros H; [constructor|].
  constructor.
  - apply Forall_forall. intros b Hb. apply H; [left; reflexivity|right; exact Hb].
  - apply IH. intros x y Hx Hy. apply H; right; assumption.
Qed.

Lemma ForallOrdPairs_app {A : Type} (R : A -> A -> Prop) (l1 l2 : list A) :
  ForallOrdPairs R l1 -> ForallOrdPairs R l2 ->
  (forall a b, In a l1 -> In b l2 -> R a b) ->
  ForallOrdPairs R (l1 ++ l2).
Proof.
  intros H1 H2 H12. induction H1 as [|a l1 Ha Hl IH]; simpl; [exact H2|].
  constructor.
  - apply Forall_app. split; [exact Ha|].
    apply Forall_forall. intros b Hb. apply H12; [left; reflexivity|exact Hb].
  - apply IH. intros x y Hx Hy. apply H12; [right; exact Hx|exact Hy].
Qed.

Lemma ForallOrdPairs_filter {A : Type} (R : A -> A -> Prop) (f : A -> bool) (l : list A) :
  ForallOrdPairs R l -> ForallOrdPairs R (filter f l).
Proof.
  induction 1 as [|a l Ha Hl IH]; simpl; [constructor|].
  destruct (f a); [|exact IH].
  constructor; [|exact IH].
  rewrite Forall_forall in *. intros b Hb. apply filter_In in Hb. apply Ha, Hb.
Qed.

(** The anatomy of a step: the spawners append [news]; then every listed
    car is updated once with the lights of this step, and the cars that
    end up off screen trigger a removal.  The list keeps every car that is
    [safe], and is exactly the list of the cars on screen when no car that
    stays compares equal to a later car that goes. *)
Lemma Simulation_update_step (s s' : Simulation) (dt : Q) (ms : Z) :
  cars_wf (store s) (cars s) ->
  In s' (Simulation_update s dt ms) ->
  exists (news : list Ref) (h0 : Heap),
    (forall r, In r (cars s) -> h0 r = heap (store s) r) /\
    (forall r, In r news -> exists sp, In sp (spawners s) /\ h0 r = spawned_Car sp) /\
    (forall r, In r (cars s ++ news) ->
               heap (store s') r
               = Car_update (h0 r) dt [traffic_light_ns s'; traffic_light_ew s']) /\
    incl (cars s') (cars s ++ news) /\
    (List.length news <= List.length (spawners s))%nat /\
    map spawned_Car (spawners s') = map spawned_Car (spawners s) /\
    NoDup (cars s ++ news) /\
    (forall x, In x (cars s ++ news) -> safe (heap (store s') x) -> In x (cars s')) /\
    (ForallOrdPairs (fun e r => separated (heap (store s') e) (heap (store s') r))
                    (cars s ++ news) ->
     cars s' = filter (on_screen (heap (store s'))) (cars s ++ news)).
Proof.
  intros Hwf Hin.
  destruct (Simulation_update_cars s s' dt ms Hin)
    as (sps & st & cs & Hsp & Hh & Hc & Hn & Hs).
  destruct (update_spawners_wf _ ms _ _ Hwf _ Hsp) as [Hnd _]. simpl in Hnd.
  destruct (update_spawners_frame _ ms _ _ _ Hsp)
    as (news & Hcs & Hlen & _ & Hold & Hnew & Hd & Hp).
  simpl in Hcs, Hold, Hnew, Hd, Hp. subst cs.
  destruct (update_cars_spec dt [traffic_light_ns s'; traffic_light_ew s'] (heap st)
              (cars s ++ news) Hnd) as (Hu & _ & _ & Hinc & Hkeep).
  rewrite <- Hh in Hu. rewrite <- Hc in Hinc, Hkeep.
  exists news, (heap st).
  split; [|split; [|split; [|split; [|split; [|split; [|split; [|split]]]]]]].
  - intros r Hr. apply Hold. destruct Hwf as [_ Hlt]. apply Hlt. exact Hr.
  - intros r Hr. destruct (Hnew r Hr) as (_ & sp & Hsp' & Hcar).
    exists sp. split; assumption.
  - exact Hu.
  - exact Hinc.
  - exact Hlen.
  - rewrite Hs. apply spawned_Car_map; assumption.
  - exact Hnd.
  - intros x Hx Hsafe. apply Hkeep; [exact Hx|].
    rewrite <- (Hu x Hx). exact Hsafe.
  - intros Hsep. rewrite Hc, Hh.
    apply update_cars_exact; [exact Hnd|].
    apply (ForallOrdPairs_impl_in _ _ _ (fun a b Ha Hb H => H)).
    revert Hsep. apply ForallOrdPairs_impl_in.
    intros a b Ha Hb H. rewrite <- (Hu a Ha), <- (Hu b Hb). exact H.
Qed.

Lemma two_lights_not_green (ns ew : TrafficLight) (d : Direction) :
  orientation ns = NORTE -> orientation ew = ESTE ->
  some_light_not_green [ns; ew] d = true.
Proof.
  intros Hn He. unfold some_light_not_green, is_green_for. simpl.
  rewrite Hn, He. destruct d, (state ns), (state ew); reflexivity.
Qed.

(** How one [Car.update] changes the progress of a car, when some light of
    the list is not green for it. *)
Lemma Car_update_progress (c : Car) (dt : Q) (luces : list TrafficLight) :
  some_light_not_green luces (direction c) = true ->
  let c' := Car_update c dt luces in
  (across (direction c) (position c') == across (direction c) (position c))%Q /\
  (in_brake_band c = true -> (progress c' == progress c)%Q) /\
  (in_brake_band c = false -> (progress c' == progress c + speed c * dt)%Q).
Proof.
  intros Hng. cbv zeta.
  destruct (Car_update_fields c dt luces) as (Fd & _ & Fl & _).
  pose proof (Car_update_position c dt luces) as Hp.
  rewrite displacement_eq, Hng, andb_true_r in Hp.
  unfold progress, leading_edge, half_length, across. rewrite Fd, Fl, Hp.
  unfold intended_displacement.
  destruct (in_brake_band c); destruct (direction c); simpl;
    (split; [lra|split; intros H; try discriminate H; lra]).
Qed.

Lemma reachable_spawned (s : Simulation) :
  reachable s ->
  map spawned_Car (spawners s) = map spawned_Car (spawners Simulation_init).
Proof.
  induction 1 as [|s s' dt ms Hr IH Hin]; [reflexivity|].
  destruct (Simulation_update_step s s' dt ms (reachable_wf s Hr) Hin)
    as (_ & _ & _ & _ & _ & _ & _ & Hm & _).
  rewrite Hm. exact IH.
Qed.

(** A car spawned in a reachable state is the car of one of the four
    original spawners. *)
Lemma spawned_original (s : Simulation) (sp : Spawner) :
  reachable s -> In sp (spawners s) ->
  exists sp0, In sp0 (spawners Simulation_init) /\ spawned_Car sp0 = spawned_Car sp.
Proof.
  intros Hr Hsp.
  assert (Hm : In (spawned_Car sp) (map spawned_Car (spawners Simulation_init))).
  { rewrite <- (reachable_spawned s Hr). apply in_map. exact Hsp. }
  apply in_map_iff in Hm. destruct Hm as (sp0 & Heq & Hsp0).
  exists sp0. split; assumption.
Qed.

Lemma spawned_on_track (sp : Spawner) :
  In sp (spawners Simulation_init) -> on_track (spawned_Car sp).
Proof.
  intros Hin. split; [reflexivity|]. split; [reflexivity|].
  exists sp. split; [exact Hin|]. split; reflexivity.
Qed.

Lemma Car_update_on_track (c : Car) (dt : Q) (luces : list TrafficLight) :
  on_track c ->
  some_light_not_green luces (direction c) = true ->
  on_track (Car_update c dt luces).
Proof.
  intros (Hs & Hl & sp & Hin & Hd & Hac) Hng.
  destruct (Car_update_fields c dt luces) as (Fd & Fs & Fl & _).
  destruct (Car_update_progress c dt luces Hng) as (Pa & _).
  unfold on_track. rewrite Fd, Fs, Fl.
  split; [exact Hs|]. split; [exact Hl|].
  exists sp. split; [exact Hin|]. split; [exact Hd|].
  rewrite Pa. exact Hac.
Qed.

Lemma reachable_on_track (s : Simulation) :
  reachable s -> forall r, In r (cars s) -> on_track (heap (store s) r).
Proof.
  induction 1 as [|s s' dt ms Hr IH Hin].
  - intros r [].
  - intros r Hr0.
    assert (Hr' : reachable s') by (eapply reachable_update; eassumption).
    destruct (reachable_orientation s' Hr') as [Hon Hoe].
    destruct (Simulation_update_step s s' dt ms (reachable_wf s Hr) Hin)
      as (news & h0 & Hold & Hnew & Hupd & Hinc & _).
    apply Hinc in Hr0. rewrite (Hupd r Hr0).
    apply Car_update_on_track; [|apply two_lights_not_green; assumption].
    apply in_app_or in Hr0. destruct Hr0 as [Ho | Hn].
    + rewrite (Hold r Ho). apply IH. exact Ho.
    + destruct (Hnew r Hn) as (sp & Hsp & ->).
      destruct (spawned_original s sp Hr Hsp) as (sp0 & Hsp0 & <-).
      apply spawned_on_track. exact Hsp0.
Qed.

(** A car on its lane whose leading edge is in the brake band is well
    inside the screen. *)
Lemma band_well_inside (c : Car) :
  on_track c -> in_brake_band c = true -> well_inside c.
Proof.
  intros (Hs & Hl & sp & Hin & Hd & Hac) Hb.
  apply brake_band_past_exit in Hb. destruct Hb as [B1 B2].
  destruct road_edges as (Ht & Hbo & Hle & Hri).
  unfold well_inside.
  unfold progress, leading_edge, half_length in *. rewrite Hl in *.
  simpl in Hin.
  destruct Hin as [<- | [<- | [<- | [<- | []]]]]; simpl in Hd; rewrite Hd in *;
    cbn in Hac, B1, B2;
    unfold ANCHO_PANTALLA, ALTO_PANTALLA, inject_Z, Qdiv in *;
    change (/ 2)%Q with (1 # 2)%Q in *; repeat split; lra.
Qed.

(** X7.  Gridlock.  In a state the program can reach, a listed car whose
    leading edge is in the brake band is, after the next call of
    [Simulation.update], still listed, at the same place and still in the
    band - whatever the time, the frame length and the phases of the
    lights.  Such a car never moves again. *)
Theorem car_in_band_is_stuck (s s' : Simulation) (dt : Q) (ms : Z) (r : Ref) :
  reachable s ->
  In s' (Simulation_update s dt ms) ->
  In r (cars s) ->
  in_brake_band (heap (store s) r) = true ->
  In r (cars s') /\
  (vx (position (heap (store s') r)) == vx (position (heap (store s) r)))%Q /\
  (vy (position (heap (store s') r)) == vy (position (heap (store s) r)))%Q /\
  in_brake_band (heap (store s') r) = true.
Proof.
  intros Hr Hin Hlisted Hband.
  assert (Hr' : reachable s') by (eapply reachable_update; eassumption).
  destruct (reachable_orientation s' Hr') as [Hon Hoe].
  destruct (Simulation_update_step s s' dt ms (reachable_wf s Hr) Hin)
    as (news & h0 & Hold & _ & Hupd & _ & _ & _ & _ & Hkeep & _).
  assert (Hall : In r (cars s ++ news)) by (apply in_or_app; left; exact Hlisted).
  assert (Hc : heap (store s') r
               = Car_update (heap (store s) r) dt [traffic_light_ns s'; traffic_light_ew s']).
  { rewrite <- (Hold r Hlisted). apply Hupd. exact Hall. }
  assert (Hng : some_light_not_green [traffic_light_ns s'; traffic_light_ew s']
                  (direction (heap (store s) r)) = true)
    by (apply two_lights_not_green; assumption).
  pose proof (halted_for_ever (heap (store s) r) dt
                [traffic_light_ns s'; traffic_light_ew s'] 1 Hband Hng) as H1.
  cbv zeta in H1. simpl in H1. rewrite <- Hc in H1.
  destruct H1 as (Hx & Hy & Hb).
  split; [|split; [exact Hx|split; [exact Hy|exact Hb]]].
  apply Hkeep; [exact Hall|].
  apply well_inside_safe, band_well_inside; [|exact Hb].
  rewrite Hc. apply Car_update_on_track; [|exact Hng].
  apply reachable_on_track; assumption.
Qed.

Lemma hd_In {A : Type} (d : A) (l : list A) : l <> [] -> In (hd d l) l.
Proof. destruct l; [congruence|]. intros _. left. reflexivity. Qed.

Lemma first_outcome_In (s : Simulation) (dt : Q) (ms : Z) :
  reachable s -> In (first_outcome s dt ms) (Simulation_update s dt ms).
Proof.
  intros Hr. apply hd_In.
  destruct (Simulation_update_total s dt ms Hr) as [s' Hs'].
  intros E. rewrite E in Hs'. exact Hs'.
Qed.

Lemma first_outcome_reachable (s : Simulation) (dt : Q) (ms : Z) :
  reachable s -> reachable (first_outcome s dt ms).
Proof.
  intros Hr. eapply reachable_update; [exact Hr|apply first_outcome_In; exact Hr].
Qed.

Lemma car_in_band_is_stuck_witness :
  let s := first_outcome Simulation_init 3 3000 in
  let s' := first_outcome s (1 # 60) 3016 in
  In 0%nat (cars s') /\
  (vx (position (heap (store s') 0%nat)) == vx (position (heap (store s) 0%nat)))%Q /\
  (vy (position (heap (store s') 0%nat)) == vy (position (heap (store s) 0%nat)))%Q /\
  in_brake_band (heap (store s') 0%nat) = true.
Proof.
  cbv zeta.
  assert (Hr : reachable (first_outcome Simulation_init 3 3000))
    by (apply first_outcome_reachable, reachable_init).
  assert (Hc : hd 1%nat (cars (first_outcome Simulation_init 3 3000)) = 0%nat
               /\ in_brake_band (heap (store (first_outcome Simulation_init 3 3000)) 0%nat)
                  = true
               /\ cars (first_outcome Simulation_init 3 3000) <> []).
  { lazy. repeat split. discriminate. }
  destruct Hc as (Hh & Hb & Hne).
  apply (car_in_band_is_stuck (first_outcome Simulation_init 3 3000)
           (first_outcome (first_outcome Simulation_init 3 3000) (1 # 60) 3016)
           (1 # 60) 3016 0%nat Hr (first_outcome_In _ _ _ Hr)).
  - rewrite <- Hh. apply hd_In. exact Hne.
  - exact Hb.
Defined.


(** ** Cars on their lanes *)

Lemma spawned_on_lane (sp : Spawner) :
  In sp (spawners Simulation_init) -> on_lane (spawned_Car sp).
Proof.
  intros Hin. unfold on_lane.
  split; [reflexivity|]. split; [reflexivity|]. split.
  - exists sp. split; [exact Hin|]. split; [reflexivity|].
    split; [reflexivity|apply Qle_refl].
  - simpl in Hin. destruct Hin as [<- | [<- | [<- | [<- | []]]]]; reflexivity.
Qed.

Lemma Car_update_on_lane (c : Car) (dt : Q) (luces : list TrafficLight) :
  on_lane c -> (0 <= dt)%Q -> (dt <= 1 # 24)%Q ->
  some_light_not_green luces (direction c) = true ->
  on_lane (Car_update c dt luces).
Proof.
  intros (Hs & Hl & (sp & Hin & Hd & Hac & Hpr) & Hb) H0 H1 Hng.
  destruct (Car_update_fields c dt luces) as (Fd & Fs & Fl & _).
  destruct (Car_update_progress c dt luces Hng) as (Pa & Ph & Pm).
  assert (Hprog : (progress c <= progress (Car_update c dt luces))%Q /\
                  (progress (Car_update c dt luces)
                   < forward_sign (direction c) * exit_boundary (direction c) + 5)%Q).
  { destruct (in_brake_band c) eqn:Eb.
    - rewrite (Ph eq_refl). split; [apply Qle_refl|exact Hb].
    - rewrite (Pm eq_refl), Hs.
      assert (Hbefore : (progress c
                         < forward_sign (direction c) * exit_boundary (direction c))%Q).
      { destruct (Qlt_le_dec (progress c)
                    (forward_sign (direction c) * exit_boundary (direction c)))
          as [Hlt | Hge]; [exact Hlt|].
        assert (Et : in_brake_band c = true)
          by (apply brake_band_past_exit; split; assumption).
        congruence. }
      split; lra. }
  destruct Hprog as [Hge Hlt].
  unfold on_lane. rewrite Fd, Fs, Fl.
  split; [exact Hs|]. split; [exact Hl|]. split; [|exact Hlt].
  exists sp. split; [exact Hin|]. split; [exact Hd|]. split.
  - rewrite Pa. exact Hac.
  - eapply Qle_trans; eassumption.
Qed.

(** A car on its lane is on screen. *)
Lemma on_lane_on_screen (c : Car) : on_lane c -> is_off_screen c = false.
Proof.
  intros (Hs & Hl & (sp & Hin & Hd & Hac & Hpr) & Hb).
  destruct (is_off_screen c) eqn:E; [|reflexivity]. exfalso.
  apply is_off_screen_spec in E.
  destruct road_edges as (Ht & Hbo & Hle & Hri).
  unfold progress, leading_edge, half_length in *. rewrite Hl in *.
  simpl in Hin.
  destruct Hin as [<- | [<- | [<- | [<- | []]]]]; simpl in Hd; rewrite Hd in *;
    cbn in Hac, Hpr, Hb, E;
    unfold ANCHO_PANTALLA, ALTO_PANTALLA in *; cbn in Hac, Hpr, Hb, E;
    unfold inject_Z, Qdiv in *; change (/ 2)%Q with (1 # 2)%Q in *; lra.
Qed.

Lemma reachable_smooth_reachable (s : Simulation) : reachable_smooth s -> reachable s.
Proof.
  induction 1 as [|s s' dt ms _ IH _ _ Hin].
  - apply reachable_init.
  - eapply reachable_update; eassumption.
Qed.

Lemma filter_all {A : Type} (f : A -> bool) (l : list A) :
  (forall x, In x l -> f x = true) -> filter f l = l.
Proof.
  induction l as [|a l IH]; intros H; simpl; [reflexivity|].
  rewrite (H a (or_introl eq_refl)). f_equal.
  apply IH. intros x Hx. apply H. right. exact Hx.
Qed.

(** After a step of at most 1/24 s from a state whose listed cars are on
    their lanes, every car the step has handled is on its lane, and the
    step has removed none. *)
Lemma smooth_step (s s' : Simulation) (dt : Q) (ms : Z) :
  reachable s ->
  (forall r, In r (cars s) -> on_lane (heap (store s) r)) ->
  (0 <= dt)%Q -> (dt <= 1 # 24)%Q ->
  In s' (Simulation_update s dt ms) ->
  (forall r, In r (cars s') -> on_lane (heap (store s') r)) /\
  exists news, cars s' = cars s ++ news /\
               (List.length news <= List.length (spawners s))%nat.
Proof.
  intros Hr Hinv H0 H1 Hin.
  assert (Hr' : reachable s') by (eapply reachable_update; eassumption).
  destruct (reachable_orientation s' Hr') as [Hon Hoe].
  destruct (Simulation_update_step s s' dt ms (reachable_wf s Hr) Hin)
    as (news & h0 & Hold & Hnew & Hupd & _ & Hlen & _ & _ & _ & Hexact).
  assert (Hall : forall r, In r (cars s ++ news) -> on_lane (heap (store s') r)).
  { intros r Hr0. rewrite (Hupd r Hr0).
    apply Car_update_on_lane; try assumption.
    - apply in_app_or in Hr0. destruct Hr0 as [Ho | Hn].
      + rewrite (Hold r Ho). apply Hinv. exact Ho.
      + destruct (Hnew r Hn) as (sp & Hsp & ->).
        destruct (spawned_original s sp Hr Hsp) as (sp0 & Hsp0 & <-).
        apply spawned_on_lane. exact Hsp0.
    - apply two_lights_not_green; assumption. }
  assert (Hkeep : cars s' = cars s ++ news).
  { rewrite Hexact.
    - apply filter_all. intros r Hr0. unfold on_screen.
      rewrite (on_lane_on_screen _ (Hall r Hr0)). reflexivity.
    - apply ForallOrdPairs_all. intros a b _ Hb _ Hoff.
      rewrite (on_lane_on_screen _ (Hall b Hb)) in Hoff. discriminate. }
  split.
  - intros r Hr0. apply Hall. rewrite <- Hkeep. exact Hr0.
  - exists news. split; [exact Hkeep|exact Hlen].
Qed.

Lemma smooth_on_lane (s : Simulation) :
  reachable_smooth s -> forall r, In r (cars s) -> on_lane (heap (store s) r).
Proof.
  induction 1 as [|s s' dt ms Hs IH H0 H1 Hin].
  - intros r [].
  - apply (smooth_step s s' dt ms (reachable_smooth_reachable s Hs) IH H0 H1 Hin).
Qed.

(** X8.  When no frame lasts longer than 1/24 s, no car ever completes
    its crossing: in every state reached, the leading edge of every listed
    car is less than 5 units beyond the exit border of the intersection,
    and the car is on screen. *)
Theorem cars_never_cross (s : Simulation) (r : Ref) :
  reachable_smooth s ->
  In r (cars s) ->
  let c := heap (store s) r in
  (progress c < forward_sign (direction c) * exit_boundary (direction c) + 5)%Q /\
  is_off_screen c = false.
Proof.
  intros Hs Hr. cbv zeta.
  pose proof (smooth_on_lane s Hs r Hr) as Hl.
  split; [apply Hl|apply on_lane_on_screen; exact Hl].
Qed.

Lemma cars_never_cross_witness :
  let s := first_outcome Simulation_init (1 # 24) 42 in
  let c := heap (store s) 0%nat in
  (progress c < forward_sign (direction c) * exit_boundary (direction c) + 5)%Q /\
  is_off_screen c = false.
Proof.
  cbv zeta.
  assert (Hs : reachable_smooth (first_outcome Simulation_init (1 # 24) 42)).
  { apply (smooth_update Simulation_init _ (1 # 24) 42 smooth_init).
    - discriminate.
    - discriminate.
    - apply first_outcome_In, reachable_init. }
  assert (Hc : hd 1%nat (cars (first_outcome Simulation_init (1 # 24) 42)) = 0%nat
               /\ cars (first_outcome Simulation_init (1 # 24) 42) <> []).
  { lazy. split; [reflexivity|discriminate]. }
  destruct Hc as [Hh Hne].
  apply (cars_never_cross (first_outcome Simulation_init (1 # 24) 42) 0%nat Hs).
  rewrite <- Hh. apply hd_In. exact Hne.
Defined.

(** X9.  Consequently the culling never fires: a step of at most 1/24 s
    from such a state removes no car.  The list after the step is the list
    before it followed by the cars just spawned, at most four. *)
Theorem cars_never_removed (s s' : Simulation) (dt : Q) (ms : Z) :
  reachable_smooth s ->
  (0 <= dt)%Q -> (dt <= 1 # 24)%Q ->
  In s' (Simulation_update s dt ms) ->
  exists news, cars s' = cars s ++ news /\ (List.length news <= 4)%nat.
Proof.
  intros Hs H0 H1 Hin.
  pose proof (reachable_smooth_reachable s Hs) as Hr.
  destruct (smooth_step s s' dt ms Hr (smooth_on_lane s Hs) H0 H1 Hin)
    as (_ & news & Hc & Hlen).
  exists news. split; [exact Hc|].
  assert (Hfour : List.length (spawners s) = 4%nat).
  { rewrite <- (length_map spawned_Car), (reachable_spawned s Hr). reflexivity. }
  rewrite Hfour in Hlen. exact Hlen.
Qed.

Lemma cars_never_removed_witness :
  exists news,
    cars (first_outcome Simulation_init (1 # 24) 42) = cars Simulation_init ++ news /\
    (List.length news <= 4)%nat.
Proof.
  apply (cars_never_removed Simulation_init _ (1 # 24) 42 smooth_init).
  - discriminate.
  - discriminate.
  - apply first_outcome_In, reachable_init.
Defined.


(** ** Culling when no frame time is negative *)

Lemma reachable_forward_reachable (s : Simulation) : reachable_forward s -> reachable s.
Proof.
  induction 1 as [|s s' dt ms _ IH _ Hin].
  - apply reachable_init.
  - eapply reachable_update; eassumption.
Qed.

Lemma from_spawn_on_track (c : Car) : from_spawn c -> on_track c.
Proof.
  intros (Hs & Hl & sp & Hin & Hd & Hac & _).
  split; [exact Hs|]. split; [exact Hl|].
  exists sp. split; [exact Hin|]. split; assumption.
Qed.

Lemma spawned_from_spawn (sp : Spawner) :
  In sp (spawners Simulation_init) -> from_spawn (spawned_Car sp).
Proof.
  intros Hin. split; [reflexivity|]. split; [reflexivity|].
  exists sp. split; [exact Hin|]. split; [reflexivity|].
  split; [reflexivity|apply Qle_refl].
Qed.

Lemma Car_update_from_spawn (c : Car) (dt : Q) (luces : list TrafficLight) :
  from_spawn c -> (0 <= dt)%Q ->
  some_light_not_green luces (direction c) = true ->
  from_spawn (Car_update c dt luces).
Proof.
  intros (Hs & Hl & sp & Hin & Hd & Hac & Hpr) H0 Hng.
  destruct (Car_update_fields c dt luces) as (Fd & Fs & Fl & _).
  destruct (Car_update_progress c dt luces Hng) as (Pa & Ph & Pm).
  unfold from_spawn. rewrite Fd, Fs, Fl.
  split; [exact Hs|]. split; [exact Hl|].
  exists sp. split; [exact Hin|]. split; [exact Hd|]. split.
  - rewrite Pa. exact Hac.
  - destruct (in_brake_band c) eqn:Eb.
    + rewrite (Ph eq_refl). exact Hpr.
    + rewrite (Pm eq_refl), Hs. lra.
Qed.

(** A car at or ahead of its spawn point is off screen exactly when it
    has passed the far limit of its lane. *)
Lemma off_screen_iff_far (c : Car) :
  from_spawn c ->
  (is_off_screen c = true <-> (screen_end (direction c) < progress c)%Q).
Proof.
  intros (Hs & Hl & sp & Hin & Hd & Hac & Hpr).
  rewrite is_off_screen_spec.
  unfold progress, leading_edge, half_length, screen_end in *. rewrite Hl in *.
  simpl in Hin.
  destruct Hin as [<- | [<- | [<- | [<- | []]]]]; simpl in Hd; rewrite Hd in *;
    cbn in Hac, Hpr |- *;
    unfold ANCHO_PANTALLA, ALTO_PANTALLA, inject_Z, Qdiv in *;
    change (/ 2)%Q with (1 # 2)%Q in *;
    (split; [intros [H | [H | [H | H]]]; lra|intros H]).
  - right. right. right. lra.
  - right. right. left. lra.
  - right. left. lra.
  - left. lra.
Qed.

Lemma same_direction_same_spawn (sp1 sp2 : Spawner) :
  In sp1 (spawners Simulation_init) -> In sp2 (spawners Simulation_init) ->
  sp_direction sp1 = sp_direction sp2 -> sp1 = sp2.
Proof.
  simpl. intros [<- | [<- | [<- | [<- | []]]]] [<- | [<- | [<- | [<- | []]]]] H;
    simpl in H; try discriminate H; reflexivity.
Qed.

(** The order of two cars of one direction survives a forward step. *)
Lemma ahead_update (e r : Car) (dt : Q) (luces : list TrafficLight) :
  from_spawn e -> from_spawn r -> (0 <= dt)%Q ->
  (forall d, some_light_not_green luces d = true) ->
  ahead_cars e r ->
  ahead_cars (Car_update e dt luces) (Car_update r dt luces).
Proof.
  intros He Hr H0 Hng Ha Hd.
  destruct (Car_update_fields e dt luces) as (Fde & _).
  destruct (Car_update_fields r dt luces) as (Fdr & _).
  rewrite Fde, Fdr in Hd.
  destruct (Car_update_progress e dt luces (Hng _)) as (_ & Phe & Pme).
  destruct (Car_update_progress r dt luces (Hng _)) as (_ & Phr & Pmr).
  destruct He as (Hse & _). destruct Hr as (Hsr & _).
  destruct (in_brake_band e) eqn:Ee.
  - left.
    destruct (halted_for_ever e dt luces 1 Ee (Hng _)) as (_ & _ & Hb). exact Hb.
  - right. destruct (Ha Hd) as [Hb | Hle]; [congruence|].
    rewrite (Pme eq_refl), Hse.
    destruct (in_brake_band r) eqn:Er.
    + rewrite (Phr eq_refl). lra.
    + rewrite (Pmr eq_refl), Hsr. lra.
Qed.

(** A car that is ahead, or in the band, is not mistaken for a car behind
    it that is off screen. *)
Lemma ahead_separated (e r : Car) :
  from_spawn e -> from_spawn r -> ahead_cars e r -> separated e r.
Proof.
  intros He Hr Ha Hon Hoff.
  destruct (Car_eqb e r) eqn:E; [exfalso|reflexivity].
  destruct (Car_eqb_close e r E) as (Hd & _).
  destruct (Ha Hd) as [Hb | Hle].
  - pose proof (well_inside_safe e (band_well_inside e (from_spawn_on_track e He) Hb) r Hoff)
      as H.
    congruence.
  - apply (off_screen_iff_far r Hr) in Hoff.
    assert (Hfar : is_off_screen e = true).
    { apply (off_screen_iff_far e He). rewrite Hd. lra. }
    congruence.
Qed.

(** One step with a frame time that is not negative: the cars keep their
    order, no car that stays is mistaken for one that goes, and the list
    afterwards holds exactly the cars that are on screen. *)
Lemma forward_step (s s' : Simulation) (dt : Q) (ms : Z) :
  reachable s ->
  (forall r, In r (cars s) -> from_spawn (heap (store s) r)) ->
  ForallOrdPairs (fun e r => ahead_cars (heap (store s) e) (heap (store s) r)) (cars s) ->
  (0 <= dt)%Q ->
  In s' (Simulation_update s dt ms) ->
  (forall r, In r (cars s') -> from_spawn (heap (store s') r)) /\
  ForallOrdPairs (fun e r => ahead_cars (heap (store s') e) (heap (store s') r)) (cars s') /\
  exists news,
    (forall r, In r news ->
               ~ In r (cars s) /\
               exists sp, In sp (spawners s) /\
                          heap (store s') r
                          = Car_update (spawned_Car sp) dt
                              [traffic_light_ns s'; traffic_light_ew s']) /\
    cars s' = filter (on_screen (heap (store s'))) (cars s ++ news).
Proof.
  intros Hr Hfs Hord H0 Hin.
  assert (Hr' : reachable s') by (eapply reachable_update; eassumption).
  destruct (reachable_orientation s' Hr') as [Hon Hoe].
  assert (Hng : forall d, some_light_not_green
                            [traffic_light_ns s'; traffic_light_ew s'] d = true)
    by (intros d; apply two_lights_not_green; assumption).
  destruct (Simulation_update_step s s' dt ms (reachable_wf s Hr) Hin)
    as (news & h0 & Hold & Hnew & Hupd & Hinc & _ & _ & Hnd & _ & Hexact).
  (* before the cars move *)
  assert (A : forall x, In x (cars s ++ news) -> from_spawn (h0 x)).
  { intros x Hx. apply in_app_or in Hx. destruct Hx as [Ho | Hn].
    - rewrite (Hold x Ho). apply Hfs. exact Ho.
    - destruct (Hnew x Hn) as (sp & Hsp & ->).
      destruct (spawned_original s sp Hr Hsp) as (sp0 & Hsp0 & <-).
      apply spawned_from_spawn. exact Hsp0. }
  assert (Anew : forall x, In x news ->
                           forall y, In y (cars s ++ news) ->
                                     direction (h0 y) = direction (h0 x) ->
                                     (progress (h0 x) <= progress (h0 y))%Q).
  { intros x Hx y Hy Hd.
    destruct (Hnew x Hx) as (sp & Hsp & Hhx).
    destruct (spawned_original s sp Hr Hsp) as (sp0 & Hsp0 & Heq).
    destruct (A y Hy) as (_ & _ & spy & Hspy & Hdy & _ & Hpy).
    rewrite Hhx, <- Heq in *.
    assert (Hsame : spy = sp0).
    { apply same_direction_same_spawn; try assumption.
      rewrite <- Hdy, Hd. reflexivity. }
    subst spy. exact Hpy. }
  assert (B : ForallOrdPairs (fun e r => ahead_cars (h0 e) (h0 r)) (cars s ++ news)).
  { apply ForallOrdPairs_app.
    - revert Hord. apply ForallOrdPairs_impl_in.
      intros a b Ha Hb H. rewrite (Hold a Ha), (Hold b Hb). exact H.
    - apply ForallOrdPairs_all. intros a b Ha Hb Hd. right.
      apply (Anew b Hb a); [apply in_or_app; right; exact Ha|exact Hd].
    - intros a b Ha Hb Hd. right.
      apply (Anew b Hb a); [apply in_or_app; left; exact Ha|exact Hd]. }
  (* after they have moved *)
  assert (A' : forall x, In x (cars s ++ news) -> from_spawn (heap (store s') x)).
  { intros x Hx. rewrite (Hupd x Hx).
    apply Car_update_from_spawn; [apply A; exact Hx|exact H0|apply Hng]. }
  assert (B' : ForallOrdPairs
                 (fun e r => ahead_cars (heap (store s') e) (heap (store s') r))
                 (cars s ++ news)).
  { revert B. apply ForallOrdPairs_impl_in.
    intros a b Ha Hb H. rewrite (Hupd a Ha), (Hupd b Hb).
    apply ahead_update; auto. }
  assert (E : cars s' = filter (on_screen (heap (store s'))) (cars s ++ news)).
  { apply Hexact. revert B'. apply ForallOrdPairs_impl_in.
    intros a b Ha Hb H. apply ahead_separated; auto. }
  split; [|split].
  - intros r Hr0. apply A', Hinc, Hr0.
  - rewrite E. apply ForallOrdPairs_filter. exact B'.
  - exists news. split; [|exact E].
    intros r Hr0. split.
    + intros Hboth. apply in_split in Hr0. destruct Hr0 as (l1 & l2 & ->).
      rewrite app_assoc in Hnd. apply NoDup_remove_2 in Hnd.
      apply Hnd. apply in_or_app. left. apply in_or_app. left. exact Hboth.
    + destruct (Hnew r Hr0) as (sp & Hsp0 & Hh).
      exists sp. split; [exact Hsp0|].
      rewrite <- Hh. apply Hupd, in_or_app. right. exact Hr0.
Qed.

Lemma reachable_forward_order (s : Simulation) :
  reachable_forward s ->
  (forall r, In r (cars s) -> from_spawn (heap (store s) r)) /\
  ForallOrdPairs (fun e r => ahead_cars (heap (store s) e) (heap (store s) r)) (cars s).
Proof.
  induction 1 as [|s s' dt ms Hs [IH1 IH2] H0 Hin].
  - split; [intros r []|constructor].
  - destruct (forward_step s s' dt ms (reachable_forward_reachable s Hs) IH1 IH2 H0 Hin)
      as (H1 & H2 & _).
    split; assumption.
Qed.

Lemma forward_step_culls (s s' : Simulation) (dt : Q) (ms : Z) :
  reachable_forward s -> (0 <= dt)%Q ->
  In s' (Simulation_update s dt ms) ->
  forall r, In r (cars s') -> is_off_screen (heap (store s') r) = false.
Proof.
  intros Hs H0 Hin r Hr0.
  destruct (reachable_forward_order s Hs) as [I1 I2].
  destruct (forward_step s s' dt ms (reachable_forward_reachable s Hs) I1 I2 H0 Hin)
    as (_ & _ & news & _ & E).
  rewrite E in Hr0. apply filter_In in Hr0. destruct Hr0 as [_ Hon].
  unfold on_screen in Hon. apply negb_true_iff in Hon. exact Hon.
Qed.




(** X10.  The order inside a step.  After a call of [Simulation.update]
    from a reachable state, every car that was listed has been updated
    exactly once from the state it had, every car spawned in this call is a
    new object that has been updated exactly once from its spawn state - it
    has already moved when it is first drawn - and both with the lights as
    this same call has set them.  The cars listed afterwards are among
    these, each at most once, and include every one of them that compares
    equal to no car off screen. *)
Theorem step_order (s s' : Simulation) (dt : Q) (ms : Z) :
  reachable s ->
  In s' (Simulation_update s dt ms) ->
  let luces := [traffic_light_ns s'; traffic_light_ew s'] in
  (traffic_light_ns s', traffic_light_ew s')
  = update_lights (traffic_light_ns s) (traffic_light_ew s) ms /\
  exists news,
    (forall r, In r (cars s) ->
               heap (store s') r = Car_update (heap (store s) r) dt luces) /\
    (forall r, In r news ->
               ~ In r (cars s) /\
               exists sp, In sp (spawners s) /\
                          heap (store s') r = Car_update (spawned_Car sp) dt luces) /\
    NoDup (cars s') /\
    incl (cars s') (cars s ++ news) /\
    (forall r, In r (cars s ++ news) -> safe (heap (store s') r) -> In r (cars s')).
Proof.
  intros Hr Hin. cbv zeta.
  split; [apply (Simulation_update_lights s s' dt ms Hin)|].
  destruct (Simulation_update_step s s' dt ms (reachable_wf s Hr) Hin)
    as (news & h0 & Hold & Hnew & Hupd & Hinc & _ & _ & Hnd & Hkeep & _).
  exists news. split; [|split; [|split; [|split]]].
  - intros r Hr0. rewrite <- (Hold r Hr0). apply Hupd, in_or_app. left. exact Hr0.
  - intros r Hr0. split.
    + intros Hboth. apply in_split in Hr0. destruct Hr0 as (l1 & l2 & ->).
      rewrite app_assoc in Hnd. apply NoDup_remove_2 in Hnd.
      apply Hnd. apply in_or_app. left. apply in_or_app. left. exact Hboth.
    + destruct (Hnew r Hr0) as (sp & Hsp0 & Hh).
      exists sp. split; [exact Hsp0|].
      rewrite <- Hh. apply Hupd, in_or_app. right. exact Hr0.
  - apply (Simulation_update_wf s s' dt ms (reachable_wf s Hr) Hin).
  - exact Hinc.
  - exact Hkeep.
Qed.

Lemma step_order_witness :
  let s' := first_outcome Simulation_init (1 # 60) 16 in
  (traffic_light_ns s', traffic_light_ew s')
  = update_lights (traffic_light_ns Simulation_init) (traffic_light_ew Simulation_init) 16 /\
  cars s' = [0; 1; 2; 3]%nat /\
  (vy (position (heap (store s') 1%nat)) == 628)%Q.
Proof.
  cbv zeta. split; [|split].
  - apply (step_order Simulation_init (first_outcome Simulation_init (1 # 60) 16) (1 # 60) 16
             reachable_init (first_outcome_In _ _ _ reachable_init)).
  - lazy. reflexivity.
  - lazy. reflexivity.
Defined.

(** ** Events and the main loop *)

Lemma handle_events_app (a : App) (l1 l2 : list Event) :
  handle_events a (l1 ++ l2) = handle_events (handle_events a l1) l2.
Proof. unfold handle_events. apply fold_left_app. Qed.

Lemma handle_events_flags_aux (events : list Event) :
  forall a : App,
    sim (handle_events a events) = sim a /\
    running (handle_events a events) = running a && negb (existsb is_quit events) /\
    paused (handle_events a events)
    = xorb (paused a) (Nat.odd (List.length (filter is_space events))).
Proof.
  induction events as [|e rest IH]; intros a.
  - simpl. rewrite andb_true_r, xorb_false_r. repeat split.
  - change (handle_events a (e :: rest)) with (handle_events (handle_event a e) rest).
    destruct (IH (handle_event a e)) as (Hs & Hr & Hp).
    rewrite Hs, Hr, Hp.
    destruct e as [|[| |]|]; simpl; repeat split;
      rewrite ?andb_true_r, ?andb_false_r; try reflexivity.
    rewrite Nat.odd_succ, <- Nat.negb_odd.
    destruct (paused a), (Nat.odd (List.length (filter is_space rest))); reflexivity.
Qed.

(** X11.  [handle_events] never touches the simulation and never sets
    [running] back to true: [running] ends up false exactly when it was
    false or a QUIT or ESCAPE is among the events.  Every SPACE toggles
    [paused], so its final value changes exactly when the number of SPACE
    presses is odd; events after a QUIT are still handled; all other
    events are ignored. *)
Theorem handle_events_flags (a : App) (events : list Event) :
  sim (handle_events a events) = sim a /\
  running (handle_events a events) = running a && negb (existsb is_quit events) /\
  paused (handle_events a events)
  = xorb (paused a) (Nat.odd (List.length (filter is_space events))).
Proof. apply handle_events_flags_aux. Qed.

Lemma bind_singletons {A : Type} (m : Dist A) (f : A -> Dist A) :
  (forall a, In a m -> f a = [a]) -> bind m f = m.
Proof.
  unfold bind. induction m as [|a m IH]; intros H; simpl; [reflexivity|].
  rewrite (H a (or_introl eq_refl)). simpl. f_equal.
  apply IH. intros b Hb. apply H. right. exact Hb.
Qed.

Lemma run_iteration_flags (a a' : App) (f : Frame) :
  In a' (run_iteration a f) ->
  running a' = running (handle_events a (events f)) /\
  paused a' = paused (handle_events a (events f)).
Proof.
  unfold run_iteration.
  destruct (paused (handle_events a (events f))) eqn:Ep; simpl.
  - intros [<- | []]. rewrite Ep. split; reflexivity.
  - unfold bind. rewrite in_flat_map. intros (s' & _ & [<- | []]). split; reflexivity.
Qed.

(** X12.  A frame that leaves the program paused changes nothing but the
    flags: lights, cars and spawn timers are those of before, although the
    clock read by [get_ticks] has advanced.  A frame that leaves it
    unpaused performs exactly one [Simulation.update] with
    [dt = tick / 1000] and the current tick count - also the frame in which
    QUIT or ESCAPE arrives. *)
Theorem frame_pause_gate (a : App) (f : Frame) :
  let a1 := handle_events a (events f) in
  (paused a1 = true ->
   run_iteration a f = [a1] /\ sim a1 = sim a) /\
  (paused a1 = false ->
   map sim (run_iteration a f)
   = Simulation_update (sim a) (inject_Z (tick f) / 1000) (ticks f) /\
   Forall (fun a' => running a' = running a1 /\ paused a' = false) (run_iteration a f)).
Proof.
  cbv zeta.
  destruct (handle_events_flags_aux (events f) a) as (Hs & _ & _).
  split; intros Hp.
  - unfold run_iteration. rewrite Hp. simpl. split; [reflexivity|exact Hs].
  - split.
    + unfold run_iteration. rewrite Hp. simpl. rewrite Hs.
      rewrite (bind_ret_map
                 (fun s' => {| sim := s';
                               running := running (handle_events a (events f));
                               paused := false |})).
      rewrite map_map. simpl. apply map_id.
    + apply Forall_forall. intros a' Ha'.
      destruct (run_iteration_flags a a' f Ha') as [Hr Hq].
      rewrite Hr, Hq, Hp. split; reflexivity.
Qed.

Lemma frame_pause_gate_witness :
  let f := {| tick := 16; ticks := 7000; events := [KEYDOWN K_SPACE] |} in
  run_iteration App_init f
  = [{| sim := Simulation_init; running := true; paused := true |}].
Proof.
  cbv zeta.
  apply (frame_pause_gate App_init
           {| tick := 16; ticks := 7000; events := [KEYDOWN K_SPACE] |}).
  reflexivity.
Defined.

Lemma run_stopped (a : App) (frames : list Frame) :
  running a = false -> run a frames = [a].
Proof. intros H. destruct frames; simpl; [reflexivity|]. rewrite H. reflexivity. Qed.

(** X13.  Quitting.  When a frame brings a QUIT or an ESCAPE, the loop
    finishes that frame and takes no further one: the result of [run] is
    that of this one iteration, whatever frames would follow.  A program
    that is no longer running ignores all frames. *)
Theorem quit_ends_run (a : App) (f : Frame) (rest : list Frame) :
  (running a = true ->
   existsb is_quit (events f) = true ->
   run a (f :: rest) = run_iteration a f /\
   Forall (fun a' => running a' = false) (run a (f :: rest))) /\
  (running a = false -> run a (f :: rest) = [a]).
Proof.
  split.
  - intros Hr Hq.
    assert (Hstop : forall a', In a' (run_iteration a f) -> running a' = false).
    { intros a' Ha'. destruct (run_iteration_flags a a' f Ha') as [H _].
      destruct (handle_events_flags_aux (events f) a) as (_ & Hrun & _).
      rewrite H, Hrun, Hq. apply andb_false_r. }
    assert (Heq : run a (f :: rest) = run_iteration a f).
    { simpl. rewrite Hr. apply bind_singletons.
      intros a' Ha'. apply run_stopped. apply Hstop. exact Ha'. }
    split; [exact Heq|].
    rewrite Heq. apply Forall_forall. exact Hstop.
  - intros Hr. apply run_stopped. exact Hr.
Qed.

Lemma quit_ends_run_witness :
  let f := {| tick := 16; ticks := 7000; events := [KEYDOWN K_SPACE; QUIT] |} in
  let g := {| tick := 16; ticks := 7016; events := [KEYDOWN K_SPACE] |} in
  run App_init [f; g] = run_iteration App_init f /\
  Forall (fun a' => running a' = false) (run App_init [f; g]).
Proof.
  cbv zeta.
  apply (quit_ends_run App_init
           {| tick := 16; ticks := 7000; events := [KEYDOWN K_SPACE; QUIT] |}
           [{| tick := 16; ticks := 7016; events := [KEYDOWN K_SPACE] |}]);
    reflexivity.
Defined.

Lemma run_iteration_reachable (a a' : App) (f : Frame) :
  reachable (sim a) -> In a' (run_iteration a f) -> reachable (sim a').
Proof.
  intros Hr. unfold run_iteration.
  destruct (handle_events_flags_aux (events f) a) as (Hs & _ & _).
  destruct (paused (handle_events a (events f))); simpl.
  - intros [<- | []]. rewrite Hs. exact Hr.
  - unfold bind. rewrite in_flat_map. intros (s' & Hs' & [<- | []]). simpl.
    rewrite Hs in Hs'. eapply reachable_update; eassumption.
Qed.

Lemma frame_time_nonneg (f : Frame) :
  (0 <= tick f)%Z -> (0 <= inject_Z (tick f) / 1000)%Q.
Proof.
  intros H. unfold Qdiv. apply Qmult_le_0_compat.
  - unfold Qle. simpl. lia.
  - unfold Qle. simpl. lia.
Qed.

Lemma run_iteration_forward (a a' : App) (f : Frame) :
  (0 <= tick f)%Z ->
  reachable_forward (sim a) -> In a' (run_iteration a f) -> reachable_forward (sim a').
Proof.
  intros H0 Hr. unfold run_iteration.
  destruct (handle_events_flags_aux (events f) a) as (Hs & _ & _).
  destruct (paused (handle_events a (events f))); simpl.
  - intros [<- | []]. rewrite Hs. exact Hr.
  - unfold bind. rewrite in_flat_map. intros (s' & Hs' & [<- | []]). simpl.
    rewrite Hs in Hs'.
    eapply forward_update; [exact Hr|apply frame_time_nonneg; exact H0|exact Hs'].
Qed.

Lemma run_forward (frames : list Frame) :
  Forall (fun f => (0 <= tick f)%Z) frames ->
  forall a a', reachable_forward (sim a) -> In a' (run a frames) ->
               reachable_forward (sim a').
Proof.
  induction 1 as [|f fs H0 _ IH]; intros a a' Ha Hi; simpl in Hi.
  - destruct Hi as [<- | []]. exact Ha.
  - destruct (running a).
    + unfold bind in Hi. apply in_flat_map in Hi. destruct Hi as (a1 & H1 & H2).
      apply (IH a1 a' (run_iteration_forward a a1 f H0 Ha H1) H2).
    + destruct Hi as [<- | []]. exact Ha.
Qed.

(** One frame without events, taken while the loop runs unpaused, is one
    call of [Simulation.update]. *)
Lemma run_one_frame (a : App) (f : Frame) (s' : Simulation) :
  running a = true -> paused a = false -> events f = [] ->
  In s' (Simulation_update (sim a) (inject_Z (tick f) / 1000) (ticks f)) ->
  In {| sim := s'; running := true; paused := false |} (run a [f]).
Proof.
  intros Hrun Hp He Hin.
  change (run a [f])
    with (if running a then bind (run_iteration a f) (fun a' => ret a') else ret a).
  rewrite Hrun. unfold run_iteration. rewrite He.
  change (handle_events a []) with a. rewrite Hp, Hrun.
  change (negb false) with true. cbv iota.
  unfold bind, ret. apply in_flat_map.
  exists {| sim := s'; running := true; paused := false |}.
  split; [|left; reflexivity].
  apply in_flat_map. exists s'. split; [exact Hin|left; reflexivity].
Qed.

(** X14.  Whatever frames and events the main loop receives, the
    simulation it holds is always a state reachable by calls of
    [Simulation.update] from the initial state, the two lights are never
    both out of [ROJO] and no car is listed twice.  When no value of
    [clock.tick] is negative, all these calls have a frame time that is
    not negative, and no listed car is off screen. *)
Theorem run_stays_reachable (frames : list Frame) (a' : App) :
  In a' (run App_init frames) ->
  reachable (sim a') /\
  both_non_red (traffic_light_ns (sim a')) (traffic_light_ew (sim a')) = false /\
  NoDup (cars (sim a')) /\
  (Forall (fun f => (0 <= tick f)%Z) frames ->
   reachable_forward (sim a') /\
   forall r, In r (cars (sim a')) -> is_off_screen (heap (store (sim a')) r) = false).
Proof.
  intros Hin.
  assert (Hr : reachable (sim a')).
  { assert (Hgen : forall fs a, reachable (sim a) -> In a' (run a fs) -> reachable (sim a')).
    { induction fs as [|f fs IH]; intros a Ha Hi; simpl in Hi.
      - destruct Hi as [<- | []]. exact Ha.
      - destruct (running a).
        + unfold bind in Hi. apply in_flat_map in Hi. destruct Hi as (a1 & H1 & H2).
          apply (IH a1 (run_iteration_reachable a a1 f Ha H1) H2).
        + destruct Hi as [<- | []]. exact Ha. }
    apply (Hgen frames App_init reachable_init Hin). }
  split; [exact Hr|]. split; [apply reachable_exclusive; exact Hr|].
  split; [apply (reachable_wf (sim a') Hr)|].
  intros Hall.
  assert (Hf : reachable_forward (sim a'))
    by (apply (run_forward frames Hall App_init a' forward_init Hin)).
  split; [exact Hf|].
  destruct Hf as [|s s' dt ms Hs H0 Hi].
  - intros r [].
  - apply (forward_step_culls s s' dt ms Hs H0 Hi).
Qed.

Lemma run_stays_reachable_witness :
  let f := {| tick := 6000; ticks := 6000; events := [] |} in
  let s' := first_outcome Simulation_init (inject_Z 6000 / 1000) 6000 in
  let a' := {| sim := s'; running := true; paused := false |} in
  In a' (run App_init [f]) /\
  state (traffic_light_ns s') = AMARILLO /\
  cars s' = [2; 3]%nat /\
  reachable_forward s' /\
  (forall r, In r (cars s') -> is_off_screen (heap (store s') r) = false).
Proof.
  cbv zeta.
  assert (Hin : In {| sim := first_outcome Simulation_init (inject_Z 6000 / 1000) 6000;
                      running := true; paused := false |}
                   (run App_init [{| tick := 6000; ticks := 6000; events := [] |}])).
  { apply (run_one_frame App_init {| tick := 6000; ticks := 6000; events := [] |});
      [reflexivity|reflexivity|reflexivity|].
    apply (first_outcome_In Simulation_init (inject_Z 6000 / 1000) 6000 reachable_init). }
  split; [exact Hin|].
  split; [lazy; reflexivity|]. split; [lazy; reflexivity|].
  destruct (run_stays_reachable
              [{| tick := 6000; ticks := 6000; events := [] |}]
              {| sim := first_outcome Simulation_init (inject_Z 6000 / 1000) 6000;
                 running := true; paused := false |} Hin) as (_ & _ & _ & H).
  apply H. repeat constructor. simpl. lia.
Defined.

(** ** Drawing *)

(** X15.  Of the three lamps [draw_traffic_lights] draws for a light,
    exactly the one for the current state is lit - red on top, yellow in the
    middle, green at the bottom - and it is drawn in the colour that
    [TrafficLight.color] returns for the light; the other two are drawn in
    (60, 60, 60).  The colours of the three states and the unlit colour
    are pairwise different. *)
Theorem one_lamp_lit (luz : TrafficLight) :
  map (fun l => fst (fst l)) (lamp_circles luz)
  = match state luz with
    | ROJO => [color luz; (60, 60, 60); (60, 60, 60)]
    | AMARILLO => [(60, 60, 60); color luz; (60, 60, 60)]
    | VERDE => [(60, 60, 60); (60, 60, 60); color luz]
    end /\
  map (fun l => snd (fst l)) (lamp_circles luz)
  = [ (fst (tl_position luz) + 20, snd (tl_position luz) + 20 + inject_Z 0 * 40)%Q;
      (fst (tl_position luz) + 20, snd (tl_position luz) + 20 + inject_Z 1 * 40)%Q;
      (fst (tl_position luz) + 20, snd (tl_position luz) + 20 + inject_Z 2 * 40)%Q ] /\
  NoDup ((60, 60, 60)
         :: map (fun st => color (set_light luz st 0)) [VERDE; AMARILLO; ROJO]).
Proof.
  unfold lamp_circles, color.
  destruct (tl_position luz) as [x y].
  split; [|split].
  - destruct (state luz); reflexivity.
  - destruct (state luz); reflexivity.
  - simpl. repeat constructor; simpl; intuition discriminate.
Qed.

(** ** Two further facts about the parts *)

(** X17.  Whenever [Car.update] adds anything but the intended
    displacement, the car's leading edge is in the 5 units that begin at
    the exit border of the intersection and some light of the list is not
    green for the car; nowhere else is a car ever braked. *)
Theorem braking_only_in_band (c : Car) (dt : Q) (luces : list TrafficLight) :
  displacement c dt luces <> intended_displacement c dt ->
  (forward_sign (direction c) * exit_boundary (direction c) <= progress c)%Q /\
  (progress c < forward_sign (direction c) * exit_boundary (direction c) + 5)%Q /\
  some_light_not_green luces (direction c) = true /\
  displacement c dt luces = (0, 0)%Q.
Proof.
  intros H. rewrite displacement_eq in *.
  destruct (in_brake_band c) eqn:Eb; simpl in *; [|congruence].
  destruct (some_light_not_green luces (direction c)); [|congruence].
  apply brake_band_past_exit in Eb. destruct Eb as [H1 H2].
  repeat split; assumption.
Qed.

Lemma braking_only_in_band_witness :
  let c := car_at NORTE 470 272 in
  (forward_sign (direction c) * exit_boundary (direction c) <= progress c)%Q /\
  (progress c < forward_sign (direction c) * exit_boundary (direction c) + 5)%Q /\
  some_light_not_green (lights_in VERDE ROJO 0 0) (direction c) = true /\
  displacement c (1 # 60) (lights_in VERDE ROJO 0 0) = (0, 0)%Q.
Proof.
  cbv zeta.
  apply (braking_only_in_band (car_at NORTE 470 272) (1 # 60) (lights_in VERDE ROJO 0 0)).
  vm_compute. discriminate.
Defined.

Lemma TrafficLight_update_idem (l : TrafficLight) (ms : Z) :
  TrafficLight_update (TrafficLight_update l ms) ms = TrafficLight_update l ms.
Proof.
  rewrite (TrafficLight_update_eq l ms).
  destruct (ms - last_change_ms l >=? timeout_of (state l)) eqn:E.
  - apply TrafficLight_update_early. simpl.
    destruct (next_state (state l)); unfold timeout_of, TIEMPO_VERDE, TIEMPO_AMARILLO; lia.
  - rewrite TrafficLight_update_eq, E. reflexivity.
Qed.

(** X18.  Calling [Simulation.update] a second time with the same
    [current_ms] leaves both lights as the first call set them: a light
    never advances twice at one instant. *)
Theorem lights_update_idempotent (ns ew : TrafficLight) (ms : Z) :
  let l1 := update_lights ns ew ms in
  update_lights (fst l1) (snd l1) ms = l1 /\
  TrafficLight_update (TrafficLight_update ns ms) ms = TrafficLight_update ns ms.
Proof.
  cbv zeta. split; [|apply TrafficLight_update_idem].
  unfold update_lights.
  destruct (LightState_eqb (state (TrafficLight_update ns ms)) ROJO) eqn:E; simpl;
    rewrite TrafficLight_update_idem, E.
  - rewrite TrafficLight_update_idem. reflexivity.
  - reflexivity.
Qed.
